(** * Word scramble game session: a shallow embedding of
      [src/cgpa_calculator.cpp] (class [WordScrambleGame]) and the
      properties of its specification.

    Conventions of the embedding.
    - [std::string] is [string]; [size_t] and [int] values are [Z] with the
      wrap-around of the machine type written out ([wrap_size_t],
      [wrap_int]).
    - [unordered_set] is [gset], [unordered_map<int,int>] is [gmap Z Z].
    - [double] is an abstract type with the operations the program uses
      (class [Float64]); each theorem lists the facts about it that it needs.
    - the clock, the file system and the random engine are inputs of the
      operations that read them. *)

From Stdlib Require Import ZArith Ascii String List Bool Lia.
From Stdlib Require Import Decimal DecimalString DecimalPos DecimalZ.
From Stdlib Require Import Sorting.Permutation.
From stdpp Require Import base decidable option numbers list sets gmap strings sorting.

Local Open Scope Z_scope.

(** ** Machine integers *)

Definition SIZE_MAX : Z := 2 ^ 64 - 1.
Definition INT_MAX : Z := 2 ^ 31 - 1.
Definition INT_MIN : Z := - 2 ^ 31.

(** [size_t] arithmetic is modulo 2^64. *)
Definition wrap_size_t (z : Z) : Z := z mod 2 ^ 64.

(** [int] arithmetic, two's complement on 32 bits. *)
Definition wrap_int (z : Z) : Z := (z + 2 ^ 31) mod 2 ^ 32 - 2 ^ 31.

Definition in_int (z : Z) : Prop := INT_MIN <= z <= INT_MAX.
Definition in_size_t (z : Z) : Prop := 0 <= z <= SIZE_MAX.

(** ** Strings *)

Definition str_size (s : string) : Z := Z.of_nat (String.length s).

Definition code (c : ascii) : Z := Z.of_N (N_of_ascii c).

Definition is_upper (c : ascii) : bool := (65 <=? code c) && (code c <=? 90).
Definition is_lower (c : ascii) : bool := (97 <=? code c) && (code c <=? 122).
Definition is_alpha (c : ascii) : bool := is_upper c || is_lower c.
Definition is_digit (c : ascii) : bool := (48 <=? code c) && (code c <=? 57).

(** [::tolower] on an [unsigned char], in the "C" locale the program runs
    in (it never calls [setlocale]). *)
Definition tolower (c : ascii) : ascii :=
  if is_upper c then ascii_of_N (Z.to_N (code c + 32)) else c.

Fixpoint string_map (f : ascii -> ascii) (s : string) : string :=
  match s with
  | EmptyString => EmptyString
  | String c s' => String (f c) (string_map f s')
  end.

Fixpoint string_forallb (p : ascii -> bool) (s : string) : bool :=
  match s with
  | EmptyString => true
  | String c s' => p c && string_forallb p s'
  end.

(** [toLowerCase], lines 58-64. *)
Definition toLowerCase (value : string) : string := string_map tolower value.

(** [caseInsensitiveCompare], lines 54-56. *)
Definition caseInsensitiveCompare (lhs rhs : string) : bool :=
  bool_decide (toLowerCase lhs = toLowerCase rhs).

(** The characters of the literal [" \t\n\r"]. *)
Definition is_trim_char (c : ascii) : bool :=
  (code c =? 32) || (code c =? 9) || (code c =? 10) || (code c =? 13).

(** [value.find_first_not_of(" \t\n\r")]; [None] is [string::npos]. *)
Fixpoint find_first_not_of (s : string) : option nat :=
  match s with
  | EmptyString => None
  | String c s' =>
      if is_trim_char c then S <$> find_first_not_of s' else Some O
  end.

(** [value.find_last_not_of(" \t\n\r")]. *)
Fixpoint find_last_not_of (s : string) : option nat :=
  match s with
  | EmptyString => None
  | String c s' =>
      match find_last_not_of s' with
      | Some i => Some (S i)
      | None => if is_trim_char c then None else Some O
      end
  end.

(** [trim], lines 424-431. *)
Definition trim (value : string) : string :=
  match find_first_not_of value with
  | None => EmptyString
  | Some start =>
      match find_last_not_of value with
      | Some e => substring start (e - start + 1)%nat value
      | None => EmptyString
      end
  end.

(** [regex_match(word, "^[A-Za-z]+$")]: the whole string is one or more
    ASCII letters. *)
Definition regex_letters (word : string) : bool :=
  match word with
  | EmptyString => false
  | String _ _ => string_forallb is_alpha word
  end.

(** The pseudo-random engine ([mt19937]) as the sequence of values it will
    produce and the number of values already taken. *)
Record Engine := mkEngine {
  outputs : nat -> Z;
  cursor : nat
}.

(** [uniform_int_distribution<size_t>(a, b)(rng)]: a value of [a..b]. *)
Definition uniform (a b : Z) (e : Engine) : Z * Engine :=
  (a + outputs e (cursor e) mod (b - a + 1),
   mkEngine (outputs e) (S (cursor e))).

(** [split], lines 433-441, a loop of [getline(ss, token, delimiter)]:
    the tokens between delimiters; an empty token after the last delimiter
    is not produced, since [getline] fails at the end of the stream. *)
Fixpoint split_go (delimiter : ascii) (s : string) : list string :=
  match s with
  | EmptyString => [EmptyString]
  | String c s' =>
      if bool_decide (c = delimiter) then
        EmptyString ::
          match s' with
          | EmptyString => []
          | String _ _ => split_go delimiter s'
          end
      else
        match split_go delimiter s' with
        | token :: parts => String c token :: parts
        | [] => [String c EmptyString]
        end
  end.

Definition split (value : string) (delimiter : ascii) : list string :=
  match value with
  | EmptyString => []
  | String _ _ => split_go delimiter value
  end.

Definition newline : ascii := ascii_of_nat 10.
Definition comma : ascii := ascii_of_nat 44.

(** The lines that a loop of [getline(input, line)] reads from a file with
    the given contents. *)
Definition file_lines (contents : string) : list string :=
  split contents newline.

(** [line.find(needle) != string::npos]. *)
Fixpoint contains (needle s : string) : bool :=
  String.prefix needle s ||
  match s with
  | EmptyString => false
  | String _ s' => contains needle s'
  end.

(** What [operator<<] writes for an [int] or a [size_t]: decimal digits,
    with a leading minus sign when negative. *)
Definition print_int (z : Z) : string :=
  DecimalString.NilZero.string_of_int (Z.to_int z).

(** [isspace] in the "C" locale: what [strtol] skips before a number. *)
Definition is_space (c : ascii) : bool :=
  (code c =? 32) || ((9 <=? code c) && (code c <=? 13)).

Fixpoint skip_spaces (s : string) : string :=
  match s with
  | String c s' => if is_space c then skip_spaces s' else s
  | EmptyString => s
  end.

Definition digit_value (c : ascii) : Z := code c - 48.

(** The value of the longest prefix of decimal digits, continuing [acc]. *)
Fixpoint digits_value (s : string) (acc : Z) : Z :=
  match s with
  | String c s' =>
      if is_digit c then digits_value s' (acc * 10 + digit_value c) else acc
  | EmptyString => acc
  end.

Definition starts_with_digit (s : string) : bool :=
  match s with
  | String c _ => is_digit c
  | EmptyString => false
  end.

(** [std::stoi(s)]: [strtol] in base 10 on the longest numeric prefix after
    leading white space; [None] when it throws ([invalid_argument] without a
    digit, [out_of_range] outside [int]). What follows the digits is
    ignored. *)
Definition stoi (s : string) : option Z :=
  let s := skip_spaces s in
  let '(negative, body) :=
    match s with
    | String c s' =>
        if bool_decide (c = "-"%char) then (true, s')
        else if bool_decide (c = "+"%char) then (false, s')
        else (false, s)
    | EmptyString => (false, s)
    end in
  if starts_with_digit body then
    let magnitude := digits_value body 0 in
    let value := if negative then - magnitude else magnitude in
    if (INT_MIN <=? value) && (value <=? INT_MAX) then Some value else None
  else None.

(** ** Shuffling *)

(** [iter_swap] of the positions [i] and [j] of a sequence. *)
Definition swap {A} (l : list A) (i j : nat) : list A :=
  match l !! i, l !! j with
  | Some x, Some y => <[i := y]> (<[j := x]> l)
  | _, _ => l
  end.

(** [std::shuffle(first, last, rng)] as the Fisher-Yates loop
    [for (i = first + 1; i != last; ++i) iter_swap(i, first + d(0, i - first))];
    [steps] positions remain, starting at [i]. *)
Fixpoint shuffle_from {A} (steps i : nat) (l : list A) (e : Engine)
  : list A * Engine :=
  match steps with
  | O => (l, e)
  | S k =>
      let '(j, e') := uniform 0 (Z.of_nat i) e in
      shuffle_from k (S i) (swap l i (Z.to_nat j)) e'
  end.

Definition shuffle {A} (l : list A) (e : Engine) : list A * Engine :=
  shuffle_from (length l - 1) 1 l e.

(** ** Scoring arithmetic *)

(** [std::round] of the value [n / 2]: halves are rounded away from zero. *)
Definition round_halves (n : Z) : Z :=
  if 0 <=? n then (n + 1) / 2 else - ((- n + 1) / 2).

(** [duration_cast<milliseconds>(b - a).count()] for two readings of the
    steady clock in nanoseconds; the cast truncates toward zero. *)
Definition duration_ms (a b : Z) : Z := Z.quot (b - a) 1000000.

(** ** Data model *)

(** [enum class Difficulty], lines 19-23. *)
Inductive Difficulty := EASY | MEDIUM | HARD.

Definition difficulty_code (d : Difficulty) : Z :=
  match d with EASY => 1 | MEDIUM => 2 | HARD => 3 end.

#[global] Instance Difficulty_eq_dec : EqDecision Difficulty.
Proof. solve_decision. Defined.

(** The operations on [double] that the program uses.  [d_of_Z] is the
    conversion [static_cast<double>] of an integer, [d_gt] is [>],
    [d_isnan] tells the values that are not a number, [stod] is
    [std::stod] ([None] when it throws) and [fixed_str p] is what
    [<< fixed << setprecision(p)] writes. *)
Class Float64 := {
  double : Type;
  d_of_Z : Z -> double;
  d_add : double -> double -> double;
  d_mul : double -> double -> double;
  d_div : double -> double -> double;
  d_gt : double -> double -> bool;
  d_isnan : double -> bool;
  stod : string -> option double;
  fixed_str : nat -> double -> string
}.

(** The facts about [>] on [double] that ordering arguments use: it is a
    strict order, and a value that is a number is comparable with the two
    ends of every strict inequality. *)
Class Float64Order (F : Float64) : Prop := {
  d_gt_irrefl : forall a, d_gt a a = false;
  d_gt_trans : forall a b c, d_gt a b = true -> d_gt b c = true -> d_gt a c = true;
  d_gt_cotrans : forall a b c,
    d_isnan b = false -> d_gt a c = true -> d_gt a b = true \/ d_gt b c = true
}.

(** What [session_accuracy] needs of the arithmetic: the conversion of an
    integer is a number; so is the quotient of two converted [size_t]
    values when the divisor is not 0, and the product of a number and a
    converted [size_t] value other than 0. *)
Class Float64Numbers (F : Float64) : Prop := {
  d_of_Z_number : forall z, d_isnan (d_of_Z z) = false;
  d_div_number : forall a b,
    in_size_t a -> in_size_t b -> b <> 0 ->
    d_isnan (d_div (d_of_Z a) (d_of_Z b)) = false;
  d_mul_number : forall a z,
    d_isnan a = false -> in_size_t z -> z <> 0 ->
    d_isnan (d_mul a (d_of_Z z)) = false
}.

(** [std::sort(first, last, comp)] is library code.  What the library
    promises is a permutation of the range that is ordered by [comp], when
    [comp] is a strict weak ordering of the elements; the order it gives to
    elements that [comp] does not separate is unspecified.  The sort is
    therefore a parameter of the session, with that contract. *)
Class StdSort := {
  std_sort : forall {A : Type}, (A -> A -> bool) -> list A -> list A
}.

(** A sequence is ordered by [comp] when no element goes, by [comp], before
    an element that precedes it. *)
Definition ordered_by {A} (comp : A -> A -> bool) (l : list A) : Prop :=
  StronglySorted (fun a b => comp b a = false) l.

(** [comp] is a strict weak ordering of the elements of [l]. *)
Definition strict_weak_on {A} (comp : A -> A -> bool) (l : list A) : Prop :=
  (forall a b, a ∈ l -> b ∈ l -> comp a b = true -> comp b a = false) /\
  (forall a b c, a ∈ l -> b ∈ l -> c ∈ l ->
     comp a c = true -> comp a b = true \/ comp b c = true).

Class StdSortSpec (S : StdSort) : Prop := {
  std_sort_spec : forall (A : Type) (comp : A -> A -> bool) (l : list A),
    strict_weak_on comp l ->
    std_sort comp l ≡ₚ l /\ ordered_by comp (std_sort comp l)
}.

(** However [comp] answers, the library sorts by exchanging elements of
    the range: after the call the range holds the elements it held before,
    each as many times. *)
Class StdSortMoves (S : StdSort) : Prop := {
  std_sort_moves : forall (A : Type) (comp : A -> A -> bool) (l : list A),
    std_sort comp l ≡ₚ l
}.

Section Session.
Context {F : Float64} {Sorter : StdSort}.

(** [struct Metrics], lines 25-33. *)
Record Metrics := mkMetrics {
  totalGuessTime : double;
  guessCount : Z;
  fileOperations : Z;
  totalFileIOTime : double;
  totalMemoryAllocated : Z;
  peakMemoryUsage : Z;
  scrambleCount : Z
}.

(** [struct LeaderboardEntry], lines 35-45. *)
Record LeaderboardEntry := mkEntry {
  rank : Z;
  name : string;
  score : Z;
  games : Z;
  attempts : Z;
  averageTime : double;
  accuracy : double;
  averageGuessTime : double;
  difficulty : Difficulty
}.

(** The private members of [WordScrambleGame], lines 406-422. *)
Record Game := mkGame {
  words : list string;
  uniqueWords : gset string;
  leaderboard : list LeaderboardEntry;
  customScores : gmap Z Z;
  currentWord : string;
  playerName : string;
  lastGuessCorrect : bool;
  totalGuesses : Z;
  correctGuesses : Z;
  g_attempts : Z;
  g_score : Z;
  gamesPlayed : Z;
  g_difficulty : Difficulty;
  metrics : Metrics;
  revealedPositions : gset Z;
  lastGuessStart : Z;
  rng : Engine
}.

Definition set_metrics (m : Metrics) (g : Game) : Game :=
  mkGame (words g) (uniqueWords g) (leaderboard g) (customScores g)
    (currentWord g) (playerName g) (lastGuessCorrect g) (totalGuesses g)
    (correctGuesses g) (g_attempts g) (g_score g) (gamesPlayed g)
    (g_difficulty g) m (revealedPositions g) (lastGuessStart g) (rng g).

Definition set_bank (ws : list string) (u : gset string) (g : Game) : Game :=
  mkGame ws u (leaderboard g) (customScores g)
    (currentWord g) (playerName g) (lastGuessCorrect g) (totalGuesses g)
    (correctGuesses g) (g_attempts g) (g_score g) (gamesPlayed g)
    (g_difficulty g) (metrics g) (revealedPositions g) (lastGuessStart g)
    (rng g).

Definition set_leaderboard (lb : list LeaderboardEntry) (g : Game) : Game :=
  mkGame (words g) (uniqueWords g) lb (customScores g)
    (currentWord g) (playerName g) (lastGuessCorrect g) (totalGuesses g)
    (correctGuesses g) (g_attempts g) (g_score g) (gamesPlayed g)
    (g_difficulty g) (metrics g) (revealedPositions g) (lastGuessStart g)
    (rng g).

Definition set_score (z : Z) (g : Game) : Game :=
  mkGame (words g) (uniqueWords g) (leaderboard g) (customScores g)
    (currentWord g) (playerName g) (lastGuessCorrect g) (totalGuesses g)
    (correctGuesses g) (g_attempts g) z (gamesPlayed g)
    (g_difficulty g) (metrics g) (revealedPositions g) (lastGuessStart g)
    (rng g).

Definition set_revealed (r : gset Z) (g : Game) : Game :=
  mkGame (words g) (uniqueWords g) (leaderboard g) (customScores g)
    (currentWord g) (playerName g) (lastGuessCorrect g) (totalGuesses g)
    (correctGuesses g) (g_attempts g) (g_score g) (gamesPlayed g)
    (g_difficulty g) (metrics g) r (lastGuessStart g) (rng g).

(** [sizeof(string)] and [sizeof(LeaderboardEntry)] on x86-64 with
    libstdc++; the estimate is a heuristic and no property below depends on
    the two values. *)
Definition sizeof_string : Z := 32.
Definition sizeof_entry : Z := 88.

Definition sum_sizes (l : list string) (acc : Z) : Z :=
  fold_left (fun t w => wrap_size_t (t + str_size w)) l acc.

(** [updateMemoryUsage], lines 451-465. *)
Definition updateMemoryUsage (g : Game) : Game :=
  let times n unit := wrap_size_t (Z.of_nat n * unit) in
  let total := 0 in
  let total := wrap_size_t (total + times (length (words g)) sizeof_string) in
  let total := sum_sizes (words g) total in
  let total :=
    wrap_size_t (total + times (size (uniqueWords g)) sizeof_string) in
  let total :=
    wrap_size_t (total + times (length (leaderboard g)) sizeof_entry) in
  let total := sum_sizes (name <$> leaderboard g) total in
  let total := wrap_size_t (total + str_size (playerName g)) in
  let m := metrics g in
  set_metrics
    (mkMetrics (totalGuessTime m) (guessCount m) (fileOperations m)
       (totalFileIOTime m) total (Z.max (peakMemoryUsage m) total)
       (scrambleCount m)) g.

(** ** Word bank *)

(** [isValidWord], lines 66-75. *)
Definition isValidWord (word : string) : bool :=
  if bool_decide (word = EmptyString) then false
  else if (str_size word <? 2) || (20 <? str_size word) then false
  else regex_letters word.

(** [addWord], lines 77-90: the result and the session after the call. *)
Definition addWord (word : string) (g : Game) : bool * Game :=
  let trimmed := trim word in
  if negb (isValidWord trimmed) then (false, g)
  else
    let lowered := toLowerCase trimmed in
    if bool_decide (lowered ∈ uniqueWords g) then (false, g)
    else
      (true,
       updateMemoryUsage
         (set_bank (words g ++ [trimmed]) (uniqueWords g ∪ {[ lowered ]}) g)).

(** [initializeDefaultWords], lines 443-449. *)
Definition default_words : list string :=
  ["puzzle"; "challenge"; "example"; "solution"]%string.

Definition initializeDefaultWords (g : Game) : Game :=
  fold_left
    (fun g word =>
       set_bank (words g ++ [word]) (uniqueWords g ∪ {[ toLowerCase word ]}) g)
    default_words g.

(** The constructor, lines 49-52, over the member initialisers; the engine
    is seeded from the clock, so it is an input. *)
Definition new_game (e : Engine) : Game :=
  updateMemoryUsage
    (initializeDefaultWords
       (mkGame [] ∅ [] ∅ EmptyString EmptyString false 0 0 0 0 0 EASY
          (mkMetrics (d_of_Z 0) 0 0 (d_of_Z 0) 0 0 0) ∅ 0 e)).

(** One file operation that took from [start] to [finish] on the clock:
    lines 112-114, 244-246, 269-271, 333-335. *)
Definition record_file_operation (start finish : Z) (g : Game) : Game :=
  let m := metrics g in
  set_metrics
    (mkMetrics (totalGuessTime m) (guessCount m)
       (wrap_size_t (fileOperations m + 1))
       (d_add (totalFileIOTime m) (d_of_Z (duration_ms start finish)))
       (totalMemoryAllocated m) (peakMemoryUsage m) (scrambleCount m)) g.

(** [loadWordsFromFile], lines 96-117.  [file] is the contents of the file,
    [None] when it cannot be opened. *)
Definition loadWordsFromFile (file : option string) (start finish : Z)
    (g : Game) : bool * Game :=
  match file with
  | None => (false, g)
  | Some contents =>
      let g :=
        fold_left
          (fun g line =>
             let trimmed := trim line in
             if bool_decide (trimmed = EmptyString) then g
             else snd (addWord trimmed g))
          (file_lines contents) g in
      (true, updateMemoryUsage (record_file_operation start finish g))
  end.

(** [setDifficulty], [setPlayerName], [resetAttempts], [customizeScoring]. *)
Definition setDifficulty (level : Difficulty) (g : Game) : Game :=
  mkGame (words g) (uniqueWords g) (leaderboard g) (customScores g)
    (currentWord g) (playerName g) (lastGuessCorrect g) (totalGuesses g)
    (correctGuesses g) (g_attempts g) (g_score g) (gamesPlayed g)
    level (metrics g) (revealedPositions g) (lastGuessStart g) (rng g).

Definition setPlayerName (n : string) (g : Game) : Game :=
  updateMemoryUsage
    (mkGame (words g) (uniqueWords g) (leaderboard g) (customScores g)
       (currentWord g) n (lastGuessCorrect g) (totalGuesses g)
       (correctGuesses g) (g_attempts g) (g_score g) (gamesPlayed g)
       (g_difficulty g) (metrics g) (revealedPositions g) (lastGuessStart g)
       (rng g)).

Definition resetAttempts (g : Game) : Game :=
  mkGame (words g) (uniqueWords g) (leaderboard g) (customScores g)
    (currentWord g) (playerName g) (lastGuessCorrect g) (totalGuesses g)
    (correctGuesses g) 0 (g_score g) (gamesPlayed g)
    (g_difficulty g) (metrics g) (revealedPositions g) (lastGuessStart g)
    (rng g).

Definition customizeScoring (wordLength reward : Z) (g : Game) : Game :=
  if (wordLength <=? 0) || (reward <=? 0) then g
  else
    mkGame (words g) (uniqueWords g) (leaderboard g)
      (<[wordLength := reward]> (customScores g))
      (currentWord g) (playerName g) (lastGuessCorrect g) (totalGuesses g)
      (correctGuesses g) (g_attempts g) (g_score g) (gamesPlayed g)
      (g_difficulty g) (metrics g) (revealedPositions g) (lastGuessStart g)
      (rng g).

(** ** Round flow *)

(** [selectRandomWord], lines 127-137; [now] is the clock reading. *)
Definition selectRandomWord (now : Z) (g : Game) : string * Game :=
  match words g with
  | [] => (EmptyString, g)
  | _ :: _ =>
      let '(i, e) := uniform 0 (Z.of_nat (length (words g)) - 1) (rng g) in
      let word := default EmptyString (words g !! Z.to_nat i) in
      (word,
       mkGame (words g) (uniqueWords g) (leaderboard g) (customScores g)
         word (playerName g) (lastGuessCorrect g) (totalGuesses g)
         (correctGuesses g) (g_attempts g) (g_score g) (gamesPlayed g)
         (g_difficulty g) (metrics g) ∅ now e)
  end.

(** [scrambleWord], lines 139-146. *)
Definition scrambleWord (word : string) (g : Game) : string * Game :=
  let scrambled := list_ascii_of_string word in
  let '(scrambled, e) :=
    if 1 <? str_size word then shuffle scrambled (rng g)
    else (scrambled, rng g) in
  let m := metrics g in
  (string_of_list_ascii scrambled,
   mkGame (words g) (uniqueWords g) (leaderboard g) (customScores g)
     (currentWord g) (playerName g) (lastGuessCorrect g) (totalGuesses g)
     (correctGuesses g) (g_attempts g) (g_score g) (gamesPlayed g)
     (g_difficulty g)
     (mkMetrics (totalGuessTime m) (guessCount m) (fileOperations m)
        (totalFileIOTime m) (totalMemoryAllocated m) (peakMemoryUsage m)
        (wrap_size_t (scrambleCount m + 1)))
     (revealedPositions g) (lastGuessStart g) e).

(** The time that [checkGuess] records, lines 150-158: the milliseconds
    since the timer was started, at least 1, and 1 when it never was. *)
Definition guess_delta (last now : Z) : Z :=
  if bool_decide (last ≠ 0) then
    let delta := duration_ms last now in
    if delta <=? 0 then 1 else delta
  else 1.

(** [checkGuess], lines 148-170; [now] and [restart] are the two clock
    readings of lines 149 and 160. *)
Definition checkGuess (guess : string) (now restart : Z) (g : Game)
  : bool * Game :=
  let m := metrics g in
  let m :=
    mkMetrics (d_add (totalGuessTime m) (d_of_Z (guess_delta (lastGuessStart g) now)))
      (wrap_size_t (guessCount m + 1)) (fileOperations m)
      (totalFileIOTime m) (totalMemoryAllocated m) (peakMemoryUsage m)
      (scrambleCount m) in
  let correct := caseInsensitiveCompare guess (currentWord g) in
  (correct,
   mkGame (words g) (uniqueWords g) (leaderboard g) (customScores g)
     (currentWord g) (playerName g) correct
     (wrap_size_t (totalGuesses g + 1))
     (if correct then wrap_size_t (correctGuesses g + 1) else correctGuesses g)
     (wrap_int (g_attempts g + 1)) (g_score g) (gamesPlayed g)
     (g_difficulty g) m (revealedPositions g) restart (rng g)).

(** [getDifficultyMultiplier], lines 467-477, in halves: 1.0, 1.5, 2.0. *)
Definition getDifficultyMultiplier2 (g : Game) : Z :=
  match g_difficulty g with
  | EASY => 2
  | MEDIUM => 3
  | HARD => 4
  end.

(** The reward of line 176-180: the custom entry for the length of the
    target, else ten times the length. *)
Definition baseScore (g : Game) : Z :=
  let len := wrap_int (str_size (currentWord g)) in
  match customScores g !! len with
  | Some reward => reward
  | None => wrap_int (len * 10)
  end.

(** [static_cast<int>(std::round(baseScore * multiplier))], line 182.  The
    product of an [int] and 1.0, 1.5 or 2.0 is exact in binary64, so the
    rounding acts on the exact number of halves. *)
Definition reward_points (g : Game) : Z :=
  wrap_int (round_halves (baseScore g * getDifficultyMultiplier2 g)).

(** [updateScore], lines 172-184. *)
Definition updateScore (g : Game) : Game :=
  if bool_decide (currentWord g = EmptyString) || negb (lastGuessCorrect g)
  then g
  else updateMemoryUsage (set_score (wrap_int (g_score g + reward_points g)) g).

(** ** Leaderboard *)

(** The comparator of the two [sort] calls, lines 214-219 and 324-329. *)
Definition entry_before (lhs rhs : LeaderboardEntry) : bool :=
  if bool_decide (score lhs = score rhs) then d_gt (accuracy lhs) (accuracy rhs)
  else bool_decide (score lhs > score rhs).

Definition with_rank (r : Z) (e : LeaderboardEntry) : LeaderboardEntry :=
  mkEntry r (name e) (score e) (games e) (attempts e) (averageTime e)
    (accuracy e) (averageGuessTime e) (difficulty e).

(** The loops of lines 220-222 and 330-332. *)
Definition assign_ranks (l : list LeaderboardEntry) : list LeaderboardEntry :=
  imap (fun i e => with_rank (wrap_int (Z.of_nat i + 1)) e) l.

Definition display_name (g : Game) : string :=
  if bool_decide (playerName g = EmptyString) then "Player"%string
  else playerName g.

Definition session_accuracy (g : Game) : double :=
  if bool_decide (totalGuesses g = 0) then d_of_Z 0
  else d_mul (d_div (d_of_Z (correctGuesses g)) (d_of_Z (totalGuesses g)))
             (d_of_Z 100).

(** The entry built by lines 204-212; [played] is the incremented
    [gamesPlayed]. *)
Definition new_entry (averageRoundTime : double) (played : Z) (g : Game)
  : LeaderboardEntry :=
  mkEntry 0 (display_name g) (g_score g) played
    (if 0 <? g_attempts g then g_attempts g else wrap_int (totalGuesses g))
    averageRoundTime (session_accuracy g)
    (if bool_decide (guessCount (metrics g) = 0) then d_of_Z 0
     else d_div (totalGuessTime (metrics g)) (d_of_Z (guessCount (metrics g))))
    (g_difficulty g).

(** [updateLeaderboard], lines 203-224. *)
Definition updateLeaderboard (averageRoundTime : double) (g : Game) : Game :=
  let played := wrap_int (gamesPlayed g + 1) in
  let entry := new_entry averageRoundTime played g in
  let lb := assign_ranks (std_sort entry_before (leaderboard g ++ [entry])) in
  updateMemoryUsage
    (mkGame (words g) (uniqueWords g) lb (customScores g)
       (currentWord g) (playerName g) (lastGuessCorrect g) (totalGuesses g)
       (correctGuesses g) (g_attempts g) (g_score g) played
       (g_difficulty g) (metrics g) (revealedPositions g) (lastGuessStart g)
       (rng g)).

Definition nl : string := String newline EmptyString.

(** The text written by lines 232-242. *)
Definition metrics_text (g : Game) : string :=
  let m := metrics g in
  ("Player: " ++ display_name g ++ nl ++
   "Score: " ++ print_int (g_score g) ++ nl ++
   "Accuracy: " ++ fixed_str 1 (session_accuracy g) ++ "%" ++ nl ++
   "Guesses: " ++ print_int (totalGuesses g) ++ nl ++
   "Correct: " ++ print_int (correctGuesses g) ++ nl ++
   "Total Guess Time: " ++ fixed_str 2 (totalGuessTime m) ++ " ms" ++ nl ++
   "File I/O Operations: " ++ print_int (fileOperations m) ++ nl ++
   "Total File I/O Time: " ++ fixed_str 2 (totalFileIOTime m) ++ " ms" ++ nl ++
   "Scrambles: " ++ print_int (scrambleCount m) ++ nl ++
   "Total Memory: " ++ print_int (totalMemoryAllocated m) ++ " bytes" ++ nl ++
   "Peak Memory: " ++ print_int (peakMemoryUsage m) ++ " bytes" ++ nl)%string.

(** [saveMetricsToFile], lines 226-248.  [can_open] tells whether the
    output file opens; the second component is what is written. *)
Definition saveMetricsToFile (can_open : bool) (start finish : Z) (g : Game)
  : bool * option string * Game :=
  if can_open then
    (true, Some (metrics_text g), record_file_operation start finish g)
  else (false, None, g).

Definition leaderboard_header : string :=
  "RANK,NAME,SCORE,GAMES,ATTEMPTS,AVG_TIME,ACCURACY,AVG_GUESS_TIME,DIFFICULTY".

Definition sep : string := String comma EmptyString.

(** One row, lines 258-266: the nine fields, then the end of the line. *)
Definition row_line (e : LeaderboardEntry) : string :=
  (print_int (rank e) ++ sep ++ name e ++ sep ++ print_int (score e) ++ sep ++
   print_int (games e) ++ sep ++ print_int (attempts e) ++ sep ++
   fixed_str 2 (averageTime e) ++ sep ++ fixed_str 2 (accuracy e) ++ sep ++
   fixed_str 2 (averageGuessTime e) ++ sep ++
   print_int (difficulty_code (difficulty e)))%string.

Definition entry_row (e : LeaderboardEntry) : string :=
  (row_line e ++ nl)%string.

Definition leaderboard_text (l : list LeaderboardEntry) : string :=
  (leaderboard_header ++ nl ++
   fold_right (fun e rest => entry_row e ++ rest) EmptyString l)%string.

(** [saveLeaderboardToFile], lines 250-273. *)
Definition saveLeaderboardToFile (can_open : bool) (start finish : Z)
    (g : Game) : bool * option string * Game :=
  if can_open then
    (true, Some (leaderboard_text (leaderboard g)),
     record_file_operation start finish g)
  else (false, None, g).

(** The difficulty of lines 308-317. *)
Definition difficulty_of_code (diff : Z) : Difficulty :=
  if bool_decide (diff = 1) then EASY
  else if bool_decide (diff = 2) then MEDIUM
  else if bool_decide (diff = 3) then HARD
  else EASY.

(** The [try] block of lines 298-320 on the nine parts of a row; [None]
    when a conversion throws. *)
Definition parse_parts (p0 p1 p2 p3 p4 p5 p6 p7 p8 : string)
  : option LeaderboardEntry :=
  r ← stoi p0;
  s ← stoi p2;
  g ← stoi p3;
  a ← stoi p4;
  t ← stod p5;
  acc ← stod p6;
  gt ← stod p7;
  diff ← stoi p8;
  Some (mkEntry r p1 s g a t acc gt (difficulty_of_code diff)).

(** Lines 291-321 on one line: the entry it contributes, if any. *)
Definition parse_row (line : string) : option LeaderboardEntry :=
  if bool_decide (trim line = EmptyString) then None
  else
    match split line comma with
    | [p0; p1; p2; p3; p4; p5; p6; p7; p8] =>
        parse_parts p0 p1 p2 p3 p4 p5 p6 p7 p8
    | _ => None
    end.

(** The lines left after the header test of lines 285-290: only the first
    line read can be skipped as a header. *)
Definition skip_header (lines : list string) : list string :=
  match lines with
  | first :: rest => if contains "RANK" first then rest else lines
  | [] => []
  end.

(** The vector [loaded] at line 323. *)
Definition loaded_rows (contents : string) : list LeaderboardEntry :=
  omap parse_row (skip_header (file_lines contents)).

(** [loadLeaderboardFromFile], lines 275-338. *)
Definition loadLeaderboardFromFile (file : option string) (start finish : Z)
    (g : Game) : bool * Game :=
  match file with
  | None => (false, g)
  | Some contents =>
      let lb := assign_ranks (std_sort entry_before (loaded_rows contents)) in
      (true,
       updateMemoryUsage
         (record_file_operation start finish (set_leaderboard lb g)))
  end.

(** ** Hints *)

(** [nextUnrevealedPosition], lines 491-498: the loop over [i], with
    [steps] positions left to try. *)
Fixpoint next_unrevealed_from (revealed : gset Z) (steps : nat) (i : Z) : Z :=
  match steps with
  | O => i
  | S k =>
      if bool_decide (i ∈ revealed) then next_unrevealed_from revealed k (i + 1)
      else i
  end.

Definition nextUnrevealedPosition (g : Game) : Z :=
  next_unrevealed_from (revealedPositions g)
    (String.length (currentWord g)) 0.

(** [currentWord.front()], [currentWord.back()], [currentWord[i]] as
    one-character strings. *)
Definition char_at (s : string) (i : Z) : string :=
  match String.get (Z.to_nat i) s with
  | Some c => String c EmptyString
  | None => EmptyString
  end.

Definition no_word_selected : string := "No word selected.".
Definition no_more_hints : string := "No more hints available.".

(** [showHint], lines 361-392: the lines written to the console and the
    session after the call. *)
Definition showHint (level : Z) (g : Game) : list string * Game :=
  let w := currentWord g in
  if bool_decide (w = EmptyString) then ([no_word_selected], g)
  else if str_size w <=? Z.of_nat (size (revealedPositions g)) then
    ([no_more_hints], g)
  else if bool_decide (level = 1) then
    (["Starts with: " ++ char_at w 0]%string,
     set_revealed (revealedPositions g ∪ {[ 0 ]}) g)
  else if bool_decide (level = 2) then
    (["Starts with " ++ char_at w 0 ++ " ... ends with "
        ++ char_at w (str_size w - 1)]%string,
     set_revealed (revealedPositions g ∪ {[ 0 ]} ∪ {[ str_size w - 1 ]}) g)
  else
    let position := nextUnrevealedPosition g in
    if str_size w <=? position then ([no_more_hints], g)
    else
      (["Letter at position " ++ print_int (position + 1) ++ " is '"
          ++ char_at w position ++ "'"]%string,
       set_revealed (revealedPositions g ∪ {[ position ]}) g).

End Session.

(** ** A model of [StdSort]

    The insertion sort of libstdc++ ([std::__insertion_sort]), which is
    what its [std::sort] runs on a range of at most 16 elements. *)

(** [std::__unguarded_linear_insert]: [val] moves down past the elements
    that it goes before.  [below] holds the elements under it, the nearest
    first, and [above] the elements it has passed. *)
Fixpoint unguarded_linear_insert {A} (comp : A -> A -> bool) (val : A)
    (below above : list A) : list A :=
  match below with
  | next :: below' =>
      if comp val next then
        unguarded_linear_insert comp val below' (next :: above)
      else reverse below ++ val :: above
  | [] => val :: above
  end.

(** One turn of the loop of [std::__insertion_sort]: an element that goes
    before the first one is moved to the front, another one is inserted
    from the back. *)
Definition linear_insert {A} (comp : A -> A -> bool) (sorted : list A)
    (val : A) : list A :=
  match sorted with
  | first :: _ =>
      if comp val first then val :: sorted
      else unguarded_linear_insert comp val (reverse sorted) []
  | [] => [val]
  end.

Definition insertion_sort {A} (comp : A -> A -> bool) (l : list A) : list A :=
  foldl (linear_insert comp) [] l.

Definition Insertion : StdSort := {| std_sort := @insertion_sort |}.

(** ** A model of [Float64]

    The doubles that are whole numbers, and NaN: enough to run the session
    on concrete inputs.  Sums and products of whole numbers are whole;
    quotients are truncated, and a division by zero gives NaN. *)
Module Whole.

Inductive t := Num (z : Z) | NaN.

Definition lift2 (f : Z -> Z -> Z) (a b : t) : t :=
  match a, b with
  | Num x, Num y => Num (f x y)
  | _, _ => NaN
  end.

Definition div (a b : t) : t :=
  match a, b with
  | Num x, Num y => if bool_decide (y = 0) then NaN else Num (Z.quot x y)
  | _, _ => NaN
  end.

Definition gt (a b : t) : bool :=
  match a, b with
  | Num x, Num y => bool_decide (x > y)
  | _, _ => false
  end.

Definition isnan (a : t) : bool :=
  match a with NaN => true | Num _ => false end.

Fixpoint zeros (p : nat) : string :=
  match p with
  | O => EmptyString
  | S k => String "0"%char (zeros k)
  end.

Definition to_fixed (p : nat) (a : t) : string :=
  match a with
  | Num z => (print_int z ++ "." ++ zeros p)%string
  | NaN => "nan"%string
  end.

(** [strtod] on the texts of this model: white space, then [nan] in any
    letter case, or a sign and digits; what follows is ignored. *)
Definition of_string (s : string) : option t :=
  let s := skip_spaces s in
  if String.prefix "nan" (toLowerCase s) then Some NaN
  else
    let '(negative, body) :=
      match s with
      | String c s' =>
          if bool_decide (c = "-"%char) then (true, s')
          else if bool_decide (c = "+"%char) then (false, s')
          else (false, s)
      | EmptyString => (false, s)
      end in
    if starts_with_digit body then
      let magnitude := digits_value body 0 in
      Some (Num (if negative then - magnitude else magnitude))
    else None.

Definition float : Float64 := {|
  double := t;
  d_of_Z := Num;
  d_add := lift2 Z.add;
  d_mul := lift2 Z.mul;
  d_div := div;
  d_gt := gt;
  d_isnan := isnan;
  stod := of_string;
  fixed_str := to_fixed
|}.

End Whole.

(** ** Vocabulary of the specification *)

(** What the specification calls matching [[A-Za-z]{2,20}]: between two and
    twenty characters, each of them a letter of the basic Latin alphabet. *)
Definition letter (c : ascii) : Prop :=
  (code "A" <= code c <= code "Z") \/ (code "a" <= code c <= code "z").

Definition matches_letters_2_20 (w : string) : Prop :=
  (2 <= String.length w <= 20)%nat /\
  Forall letter (list_ascii_of_string w).

(** Two characters are the same up to letter case when they are equal or
    one is a capital letter and the other its small form, 32 codes later. *)
Definition same_ignoring_case (a b : ascii) : Prop :=
  a = b \/
  (is_upper a = true /\ code b = code a + 32) \/
  (is_upper b = true /\ code a = code b + 32).

(** Two words are case-insensitively equal when they have the same length
    and their characters are pairwise the same up to letter case. *)
Definition case_insensitively_equal (a b : string) : Prop :=
  Forall2 same_ignoring_case (list_ascii_of_string a) (list_ascii_of_string b).

(** [r] is the integer nearest to [h / 2], a half going away from zero:
    what the specification writes [round]. *)
Definition rounds_halves_to (h r : Z) : Prop :=
  Z.abs (2 * r - h) <= 1 /\ (Z.abs (2 * r - h) = 1 -> Z.abs h < Z.abs (2 * r)).

(** The multiplier of a difficulty, 1.0, 1.5 or 2.0, counted in halves. *)
Definition multiplier_halves (d : Difficulty) : Z :=
  match d with EASY => 2 | MEDIUM => 3 | HARD => 4 end.

(** How many times a character occurs in a text. *)
Fixpoint count_char (d : ascii) (s : string) : nat :=
  match s with
  | EmptyString => 0
  | String c s' => (if bool_decide (c = d) then 1 else 0) + count_char d s'
  end.

(** The text ends with the character. *)
Fixpoint ends_with (d : ascii) (s : string) : bool :=
  match s with
  | EmptyString => false
  | String c EmptyString => bool_decide (c = d)
  | String _ s' => ends_with d s'
  end.

Definition digit_or_minus (c : ascii) : bool :=
  is_digit c || bool_decide (c = "-"%char).

(** What the round trip needs of the text of a [double] written with two
    decimals: it has no comma and no line feed, and [stod] reads it. *)
Class Float64Text (F : Float64) : Prop := {
  fixed_no_comma : forall d, count_char comma (fixed_str 2 d) = 0%nat;
  fixed_no_newline : forall d, count_char newline (fixed_str 2 d) = 0%nat;
  fixed_reads : forall d, is_Some (stod (fixed_str 2 d))
}.

Section Vocabulary.
Context {F : Float64} {Sorter : StdSort}.

(** The set of lower-case forms covers the bank: what the constructor
    establishes and every operation keeps. *)
Definition bank_inv (g : Game) : Prop :=
  Forall (fun w => toLowerCase w ∈ uniqueWords g) (words g).

#[global] Instance bank_inv_dec g : Decision (bank_inv g).
Proof. unfold bank_inv. apply _. Defined.

(** The reward of the specification: the custom entry for the length of
    the target when there is one, else ten times the length. *)
Definition reward (g : Game) : Z :=
  match customScores g !! str_size (currentWord g) with
  | Some r => r
  | None => 10 * str_size (currentWord g)
  end.

(** [round(reward x multiplier)] for the session. *)
Definition rounded_reward (g : Game) : Z :=
  round_halves (reward g * multiplier_halves (g_difficulty g)).

(** The [int] computations of [updateScore] stay inside [int] when the
    score is increased by [k] rewards. *)
Definition score_fits (k : Z) (g : Game) : Prop :=
  in_int (str_size (currentWord g) * 10) /\
  in_int (rounded_reward g) /\
  in_int (g_score g + k * rounded_reward g).

(** The four counters that [checkGuess] increments are below the largest
    value of their type. *)
Definition counters_fit (g : Game) : Prop :=
  0 <= guessCount (metrics g) < SIZE_MAX /\
  0 <= totalGuesses g < SIZE_MAX /\
  0 <= correctGuesses g < SIZE_MAX /\
  INT_MIN <= g_attempts g < INT_MAX.

(** The console output that tells the player that no hint is given. *)
Definition signals_no_hint (out : list string) : Prop :=
  out = [no_word_selected] \/ out = [no_more_hints].

(** Every position of the target is in the revealed set. *)
Definition all_revealed (g : Game) : Prop :=
  forall i, 0 <= i < str_size (currentWord g) -> i ∈ revealedPositions g.

(** The characters of the scrambled word, before they are made a string. *)
Definition scrambled_chars (word : string) (g : Game) : list ascii :=
  if 1 <? str_size word then fst (shuffle (list_ascii_of_string word) (rng g))
  else list_ascii_of_string word.

(** [a] may stand before [b]: a higher score, or the same score and an
    accuracy that [b] does not exceed. *)
Definition stands_before (a b : LeaderboardEntry) : Prop :=
  score a > score b \/
  (score a = score b /\ d_gt (accuracy b) (accuracy a) = false).

(** Descending by score, ties by descending accuracy. *)
Definition leaderboard_sorted (l : list LeaderboardEntry) : Prop :=
  StronglySorted stands_before l.

(** The ranks are 1, 2, ..., N in the order of the sequence. *)
Definition ranks_contiguous (l : list LeaderboardEntry) : Prop :=
  rank <$> l = seqZ 1 (Z.of_nat (length l)).

(** The accuracy of the entry is a number. *)
Definition accuracy_is_number (e : LeaderboardEntry) : Prop :=
  d_isnan (accuracy e) = false.

(** The two counters that [session_accuracy] divides are [size_t] values. *)
Definition guesses_in_size_t (g : Game) : Prop :=
  in_size_t (correctGuesses g) /\ in_size_t (totalGuesses g).

(** An entry without its rank, which every load and update recomputes. *)
Definition forget_rank (e : LeaderboardEntry) : LeaderboardEntry :=
  with_rank 0 e.

(** The part of an entry that the round trip is about. *)
Definition entry_tuple (e : LeaderboardEntry) : Z * string * Z * Z * Difficulty :=
  (score e, name e, games e, attempts e, difficulty e).

(** The row written for the entry is one that the load accepts. *)
Definition row_parses (e : LeaderboardEntry) : Prop :=
  is_Some (parse_row (row_line e)).

#[global] Instance row_parses_dec e : Decision (row_parses e).
Proof. unfold row_parses. apply _. Defined.

(** [saveLeaderboardToFile] to a file that opens, then
    [loadLeaderboardFromFile] of what was written. *)
Definition save_and_reload (s1 f1 s2 f2 : Z) (g : Game) : Game :=
  let '(_, file, g1) := saveLeaderboardToFile true s1 f1 g in
  snd (loadLeaderboardFromFile file s2 f2 g1).

(** The round trip as the specification states it. *)
Definition round_trip_holds (s1 f1 s2 f2 : Z) (g : Game) : Prop :=
  entry_tuple <$> leaderboard (save_and_reload s1 f1 s2 f2 g) =
  entry_tuple <$> filter row_parses (leaderboard g).

(** The [int] fields of an entry are in the range of [int]. *)
Definition entry_in_int (e : LeaderboardEntry) : Prop :=
  in_int (rank e) /\ in_int (score e) /\ in_int (games e) /\
  in_int (attempts e).

(** A [double] after it is written with two decimals and read again. *)
Definition reread (d : double) : double :=
  default d (stod (fixed_str 2 d)).

Definition reparsed (e : LeaderboardEntry) : LeaderboardEntry :=
  mkEntry (rank e) (name e) (score e) (games e) (attempts e)
    (reread (averageTime e)) (reread (accuracy e))
    (reread (averageGuessTime e)) (difficulty e).

(** The round trip up to the order of the entries. *)
Definition round_trip_up_to_order (s1 f1 s2 f2 : Z) (g : Game) : Prop :=
  entry_tuple <$> leaderboard (save_and_reload s1 f1 s2 f2 g) ≡ₚ
  entry_tuple <$> filter row_parses (leaderboard g).

(** The accuracy of the entry, written and read again, is a number. *)
Definition reads_as_number (e : LeaderboardEntry) : Prop :=
  d_isnan (reread (accuracy e)) = false.

(** Every entry goes strictly before the entries that follow it, by score
    and then by the accuracy as it is written: no two entries tie. *)
Definition strictly_ranked (l : list LeaderboardEntry) : Prop :=
  StronglySorted
    (fun a b => entry_before (reparsed a) (reparsed b) = true) l.

(** The rows of the written text. *)
Definition rows_text (l : list LeaderboardEntry) : string :=
  fold_right (fun e rest => entry_row e ++ rest)%string EmptyString l.

End Vocabulary.

(** ** Sample sessions *)

Section SampleSessions.
#[local] Existing Instance Whole.float.
#[local] Existing Instance Insertion.

(** A session to run the operations on: the freshly constructed game, with
    an engine that always produces the same value. *)
Definition sample_engine : Engine := mkEngine (fun _ => 0) 0.

Definition sample_game : @Game Whole.float := new_game sample_engine.

(** The sample session with a target selected at clock reading 1000000. *)
Definition sample_selected : @Game Whole.float :=
  snd (selectRandomWord 1000000 sample_game).

(** The sample session after a round: the target is selected at clock
    reading 1000000 ("puzzle", the engine giving index 0) and guessed right
    3 ms later. *)
Definition sample_round : @Game Whole.float :=
  snd (checkGuess "PUZZLE" 4000000 4000001
         (snd (selectRandomWord 1000000 sample_game))).

(** A leaderboard file with two entries of score 100, the second with the
    higher accuracy. *)
Definition sample_file : string :=
  leaderboard_header ++ nl ++
  "1,ann,100,1,4,12.00,50.00,3.00,1" ++ nl ++
  "2,bob,100,2,4,12.00,75.00,3.00,2" ++ nl.

(** The session after the file above is loaded. *)
Definition sample_loaded : Game :=
  snd (loadLeaderboardFromFile (Some sample_file) 0 5000000 sample_game).

(** A player name that holds the rest of a row, a line feed, and the start
    of another row. *)
Definition crafted_name : string :=
  "x,5,5,5,1.0,1.0,1.0,1" ++ nl ++ "7,y".

(** The sample round scored, the player renamed, the leaderboard updated. *)
Definition crafted_game : Game :=
  updateLeaderboard (Whole.Num 0)
    (setPlayerName crafted_name (updateScore sample_round)).

(** A leaderboard file with four entries of score 100; the accuracy of the
    third is written [nan], which [stod] reads. *)
Definition nan_file : string :=
  leaderboard_header ++ nl ++
  "1,ann,100,1,4,12.00,75.00,3.00,1" ++ nl ++
  "2,bob,100,1,4,12.00,50.00,3.00,1" ++ nl ++
  "3,cat,100,1,4,12.00,nan,3.00,1" ++ nl ++
  "4,dan,100,1,4,12.00,60.00,3.00,1" ++ nl.

(** A file with a row of eight fields, a row whose score is not a number,
    an empty line and a row with difficulty code 7: the two good rows are
    loaded, the last one as Easy. *)
Definition messy_file : string :=
  leaderboard_header ++ nl ++
  "1,ann,100,1,4,12.00,50.00,3.00,1" ++ nl ++
  "2,short,100,1,4,12.00,50.00,3.00" ++ nl ++
  "3,word,abc,1,4,12.00,50.00,3.00,1" ++ nl ++
  EmptyString ++ nl ++
  "4,bob,120,2,4,12.00,75.00,3.00,7" ++ nl.

End SampleSessions.

(** ** The remaining operations *)

Section Sessions.
Context {F : Float64} {Sorter : StdSort}.

(** [difficultyToString], lines 479-489. *)
Definition difficultyToString (diff : Difficulty) : string :=
  match diff with
  | EASY => "Easy"
  | MEDIUM => "Medium"
  | HARD => "Hard"
  end.

Fixpoint spaces (n : nat) : string :=
  match n with
  | O => EmptyString
  | S k => String " "%char (spaces k)
  end.

(** [left << setw(width) << text]: the text, padded with spaces on the right
    up to the width; a longer text is written whole. *)
Definition setw_left (width : nat) (text : string) : string :=
  (text ++ spaces (width - String.length text))%string.

(** The header written by lines 345-347. *)
Definition display_header : string :=
  (setw_left 5 "Rank" ++ setw_left 15 "Name" ++ setw_left 10 "Score" ++
   setw_left 10 "Games" ++ setw_left 12 "Attempts" ++ setw_left 12 "Avg Time" ++
   setw_left 12 "Accuracy" ++ setw_left 15 "Avg Guess" ++
   setw_left 12 "Difficulty")%string.

(** One row of the table, lines 349-357; the width set for the accuracy is
    used up by the number, so the percent sign follows unpadded. *)
Definition display_row (e : LeaderboardEntry) : string :=
  (setw_left 5 (print_int (rank e)) ++ setw_left 15 (name e) ++
   setw_left 10 (print_int (score e)) ++ setw_left 10 (print_int (games e)) ++
   setw_left 12 (print_int (attempts e)) ++
   setw_left 12 (fixed_str 1 (averageTime e)) ++
   setw_left 12 (fixed_str 1 (accuracy e)) ++ "%" ++
   setw_left 15 (fixed_str 2 (averageGuessTime e)) ++
   setw_left 12 (difficultyToString (difficulty e)))%string.

(** [displayLeaderboard], lines 340-359: the lines written to the console. *)
Definition displayLeaderboard (g : Game) : list string :=
  match leaderboard g with
  | [] => ["No leaderboard data available."%string]
  | _ :: _ => display_header :: (display_row <$> leaderboard g)
  end.

(** ** Sessions

    The public operations that change the session, and the sessions that a
    sequence of them reaches from the constructor. *)
Inductive Operation :=
  | OpAddWord (word : string)
  | OpLoadWords (file : option string) (start finish : Z)
  | OpSetDifficulty (level : Difficulty)
  | OpSelectRandomWord (now : Z)
  | OpScrambleWord (word : string)
  | OpCheckGuess (guess : string) (now restart : Z)
  | OpUpdateScore
  | OpResetAttempts
  | OpSetPlayerName (n : string)
  | OpUpdateLeaderboard (averageRoundTime : double)
  | OpSaveMetrics (can_open : bool) (start finish : Z)
  | OpSaveLeaderboard (can_open : bool) (start finish : Z)
  | OpLoadLeaderboard (file : option string) (start finish : Z)
  | OpShowHint (level : Z)
  | OpCustomizeScoring (wordLength reward : Z).

Definition perform (op : Operation) (g : Game) : Game :=
  match op with
  | OpAddWord word => snd (addWord word g)
  | OpLoadWords file start finish => snd (loadWordsFromFile file start finish g)
  | OpSetDifficulty level => setDifficulty level g
  | OpSelectRandomWord now => snd (selectRandomWord now g)
  | OpScrambleWord word => snd (scrambleWord word g)
  | OpCheckGuess guess now restart => snd (checkGuess guess now restart g)
  | OpUpdateScore => updateScore g
  | OpResetAttempts => resetAttempts g
  | OpSetPlayerName n => setPlayerName n g
  | OpUpdateLeaderboard averageRoundTime => updateLeaderboard averageRoundTime g
  | OpSaveMetrics can_open start finish =>
      snd (saveMetricsToFile can_open start finish g)
  | OpSaveLeaderboard can_open start finish =>
      snd (saveLeaderboardToFile can_open start finish g)
  | OpLoadLeaderboard file start finish =>
      snd (loadLeaderboardFromFile file start finish g)
  | OpShowHint level => snd (showHint level g)
  | OpCustomizeScoring wordLength reward =>
      customizeScoring wordLength reward g
  end.

Inductive reachable : Game -> Prop :=
  | reachable_new e : reachable (new_game e)
  | reachable_perform op g : reachable g -> reachable (perform op g).

(** The word bank is well formed: every word is valid, no two words are
    equal up to letter case, and the set of lower-case forms is the set of
    the lower-case forms of the words. *)
Definition bank_well_formed (g : Game) : Prop :=
  Forall (fun w => isValidWord w = true) (words g) /\
  NoDup (toLowerCase <$> words g) /\
  uniqueWords g = list_to_set (toLowerCase <$> words g).

(** The target is a word of the bank, when there is one. *)
Definition target_in_bank (g : Game) : Prop :=
  currentWord g = EmptyString \/ currentWord g ∈ words g.

(** The revealed positions are positions of the target. *)
Definition revealed_in_range (g : Game) : Prop :=
  forall i, i ∈ revealedPositions g -> 0 <= i < str_size (currentWord g).

(** The scoring table holds positive rewards for positive lengths. *)
Definition custom_positive (g : Game) : Prop :=
  forall len r, customScores g !! len = Some r -> 0 < len /\ 0 < r.

(** The peak of the memory estimate is at least the current estimate. *)
Definition peak_covers_total (g : Game) : Prop :=
  0 <= totalMemoryAllocated (metrics g) <= peakMemoryUsage (metrics g).

Definition session_inv (g : Game) : Prop :=
  bank_well_formed g /\ target_in_bank g /\ revealed_in_range g /\
  custom_positive g /\ peak_covers_total g.

(** The fields that the well-formedness of the bank, the target, the
    revealed positions and the scoring table are about. *)
Definition same_round_state (g g' : Game) : Prop :=
  words g' = words g /\ uniqueWords g' = uniqueWords g /\
  currentWord g' = currentWord g /\
  revealedPositions g' = revealedPositions g /\
  customScores g' = customScores g.

(** The loop of [loadWordsFromFile] over the lines of the file. *)
Definition add_lines (lines : list string) (g : Game) : Game :=
  fold_left
    (fun g line =>
       let trimmed := trim line in
       if bool_decide (trimmed = EmptyString) then g
       else snd (addWord trimmed g))
    lines g.

(** From [g] to [g'] the peak of the memory estimate does not decrease, and
    it still covers the estimate if it did. *)
Definition memory_step (g g' : Game) : Prop :=
  (peak_covers_total g -> peak_covers_total g') /\
  peakMemoryUsage (metrics g) <= peakMemoryUsage (metrics g').

(** [count] hints of level 3, one after the other. *)
Fixpoint hints3 (count : nat) (g : Game) : Game :=
  match count with
  | O => g
  | S k => hints3 k (snd (showHint 3 g))
  end.

End Sessions.

(** ** Further vocabulary *)

(** White space removed on the left, and on the right. *)
Fixpoint lstrip (s : string) : string :=
  match s with
  | EmptyString => EmptyString
  | String c s' => if is_trim_char c then lstrip s' else s
  end.

Fixpoint rstrip (s : string) : string :=
  match s with
  | EmptyString => EmptyString
  | String c s' =>
      match rstrip s' with
      | EmptyString => if is_trim_char c then EmptyString else String c EmptyString
      | String _ _ as r => String c r
      end
  end.

(** The tokens written one after the other with the delimiter between
    them. *)
Fixpoint join (delimiter : ascii) (parts : list string) : string :=
  match parts with
  | [] => EmptyString
  | [p] => p
  | p :: rest => (p ++ String delimiter (join delimiter rest))%string
  end.

(** * Properties *)

(** ** The word bank *)

Lemma is_alpha_letter c : is_alpha c = true -> letter c.
Proof.
  unfold is_alpha, is_upper, is_lower, letter.
  change (code "A") with 65; change (code "Z") with 90.
  change (code "a") with 97; change (code "z") with 122.
  intros H. apply orb_true_iff in H as [H|H];
    apply andb_true_iff in H as [H1 H2];
    apply Z.leb_le in H1; apply Z.leb_le in H2; lia.
Qed.

Lemma string_forallb_Forall p (P : ascii -> Prop) s :
  (forall c, p c = true -> P c) ->
  string_forallb p s = true -> Forall P (list_ascii_of_string s).
Proof.
  intros HP. induction s as [|c s IH]; simpl; intros H.
  - constructor.
  - apply andb_true_iff in H as [Hc Hs]. constructor; auto.
Qed.

Lemma isValidWord_matches w :
  isValidWord w = true -> matches_letters_2_20 w.
Proof.
  unfold isValidWord, str_size. case_bool_decide; [discriminate|].
  destruct (_ || _) eqn:Hlen; [discriminate|].
  apply orb_false_iff in Hlen as [H2 H20].
  apply Z.ltb_ge in H2. apply Z.ltb_ge in H20.
  intros Hre. split; [lia|].
  destruct w as [|c w]; [discriminate|].
  simpl in Hre. eapply string_forallb_Forall; [apply is_alpha_letter|exact Hre].
Qed.

Lemma code_range c : 0 <= code c < 256.
Proof.
  unfold code. pose proof (N_ascii_bounded c) as H. lia.
Qed.

Lemma code_inj a b : code a = code b -> a = b.
Proof.
  unfold code. intros H. apply N2Z.inj in H.
  rewrite <- (ascii_N_embedding a), <- (ascii_N_embedding b). congruence.
Qed.

Lemma code_tolower c :
  code (tolower c) = if is_upper c then code c + 32 else code c.
Proof.
  unfold tolower. destruct (is_upper c) eqn:Hu; [|reflexivity].
  unfold is_upper in Hu. apply andb_true_iff in Hu as [H1 H2].
  apply Z.leb_le in H1. apply Z.leb_le in H2.
  unfold code at 1. rewrite N_ascii_embedding.
  - rewrite Z2N.id; lia.
  - change 256%N with (Z.to_N 256). apply Z2N.inj_lt; lia.
Qed.

Lemma tolower_eq_iff a b :
  tolower a = tolower b <-> same_ignoring_case a b.
Proof.
  unfold same_ignoring_case. split.
  - intros H. apply (f_equal code) in H. rewrite !code_tolower in H.
    destruct (is_upper a) eqn:Ha, (is_upper b) eqn:Hb.
    + left. apply code_inj. lia.
    + right. left. split; [reflexivity|lia].
    + right. right. split; [reflexivity|lia].
    + left. apply code_inj. exact H.
  - assert (forall x y, is_upper x = true -> code y = code x + 32 ->
                        tolower x = tolower y) as Hcase.
    { intros x y Hx Hy. apply code_inj. rewrite !code_tolower, Hx.
      replace (is_upper y) with false; [lia|].
      unfold is_upper in *. apply andb_true_iff in Hx as [H1 H2].
      apply Z.leb_le in H1. apply Z.leb_le in H2. symmetry.
      apply andb_false_iff. right. apply Z.leb_gt. lia. }
    intros [-> | [[Ha Hb] | [Hb Ha]]]; [reflexivity|auto|symmetry; auto].
Qed.

Lemma toLowerCase_eq_iff a b :
  toLowerCase a = toLowerCase b <-> case_insensitively_equal a b.
Proof.
  unfold toLowerCase, case_insensitively_equal. revert b.
  induction a as [|x a IH]; intros [|y b]; simpl.
  - split; [constructor|reflexivity].
  - split; [discriminate|inversion 1].
  - split; [discriminate|inversion 1].
  - split.
    + intros H. injection H as Hxy Hab. constructor.
      * apply tolower_eq_iff, Hxy.
      * apply IH, Hab.
    + inversion 1 as [|? ? ? ? Hxy Hab]; subst.
      apply tolower_eq_iff in Hxy. apply IH in Hab. congruence.
Qed.

Lemma caseInsensitiveCompare_spec a b :
  caseInsensitiveCompare a b = true <-> case_insensitively_equal a b.
Proof.
  unfold caseInsensitiveCompare. rewrite bool_decide_eq_true.
  apply toLowerCase_eq_iff.
Qed.

Section BankProperties.
Context {F : Float64} {Sorter : StdSort}.

Lemma words_updateMemoryUsage g : words (updateMemoryUsage g) = words g.
Proof. reflexivity. Qed.

Lemma uniqueWords_updateMemoryUsage g :
  uniqueWords (updateMemoryUsage g) = uniqueWords g.
Proof. reflexivity. Qed.

Lemma bank_inv_new_game e : bank_inv (new_game e).
Proof.
  unfold bank_inv, new_game.
  rewrite words_updateMemoryUsage, uniqueWords_updateMemoryUsage.
  cbn. repeat constructor; set_solver.
Qed.

Lemma addWord_bank_inv word g : bank_inv g -> bank_inv (snd (addWord word g)).
Proof.
  unfold addWord, bank_inv. intros Hinv.
  destruct (negb _); [exact Hinv|]. case_bool_decide; [exact Hinv|].
  cbn. apply Forall_app. split.
  - eapply Forall_impl; [exact Hinv|]. cbn. set_solver.
  - repeat constructor. set_solver.
Qed.

(** C1: a word that [addWord] accepts matches [[A-Za-z]{2,20}] once trimmed,
    is case-insensitively different from every word already in the bank, and
    is appended to the bank; a word that is invalid, or that equals a word of
    the bank up to case, is refused and the session is left as it was. *)
Theorem addWord_accepts_valid_new_words (word : string) (g : Game) :
  bank_inv g ->
  (forall g', addWord word g = (true, g') ->
     matches_letters_2_20 (trim word) /\
     (forall v, v ∈ words g -> ~ case_insensitively_equal v (trim word)) /\
     words g' = words g ++ [trim word] /\
     bank_inv g') /\
  (isValidWord (trim word) = false \/
   (exists v, v ∈ words g /\ case_insensitively_equal v (trim word)) ->
     addWord word g = (false, g)) /\
  (forall g', addWord word g = (false, g') -> g' = g).
Proof.
  intros Hinv. split; [|split].
  - intros g' Hadd. pose proof (addWord_bank_inv word g Hinv) as Hinv'.
    rewrite Hadd in Hinv'. cbn in Hinv'.
    unfold addWord in Hadd.
    destruct (isValidWord (trim word)) eqn:Hvalid; [|discriminate].
    cbn in Hadd. case_bool_decide as Hdup; [discriminate|].
    injection Hadd as <-. repeat split; try done.
    + apply isValidWord_matches in Hvalid. apply Hvalid.
    + apply isValidWord_matches in Hvalid. apply Hvalid.
    + apply isValidWord_matches in Hvalid. apply Hvalid.
    + intros v Hv Heq. apply Hdup. apply toLowerCase_eq_iff in Heq.
      rewrite <- Heq. unfold bank_inv in Hinv.
      rewrite Forall_forall in Hinv. auto.
  - intros [Hbad | (v & Hv & Heq)]; unfold addWord.
    + rewrite Hbad. reflexivity.
    + destruct (negb _); [reflexivity|].
      rewrite bool_decide_eq_true_2; [reflexivity|].
      apply toLowerCase_eq_iff in Heq. rewrite <- Heq.
      unfold bank_inv in Hinv. rewrite Forall_forall in Hinv. auto.
  - intros g'. unfold addWord.
    destruct (negb _); [congruence|]. case_bool_decide; congruence.
Qed.

End BankProperties.

Lemma addWord_accepts_valid_new_words_witness :
  bank_inv sample_game /\
  ((forall g', addWord "  Hello " sample_game = (true, g') ->
     matches_letters_2_20 (trim "  Hello ") /\
     (forall v, v ∈ words sample_game ->
        ~ case_insensitively_equal v (trim "  Hello ")) /\
     words g' = words sample_game ++ [trim "  Hello "] /\
     bank_inv g') /\
   (isValidWord (trim "  Hello ") = false \/
    (exists v, v ∈ words sample_game /\
               case_insensitively_equal v (trim "  Hello ")) ->
      addWord "  Hello " sample_game = (false, sample_game)) /\
   (forall g', addWord "  Hello " sample_game = (false, g') ->
      g' = sample_game)).
Proof.
  split.
  - apply bank_inv_new_game.
  - apply (addWord_accepts_valid_new_words "  Hello " sample_game).
    apply bank_inv_new_game.
Defined.

(** ** Scoring *)

Lemma wrap_int_id z : in_int z -> wrap_int z = z.
Proof.
  unfold in_int, wrap_int, INT_MIN, INT_MAX. intros H.
  rewrite Z.mod_small; lia.
Qed.

Lemma wrap_size_t_id z : in_size_t z -> wrap_size_t z = z.
Proof.
  unfold in_size_t, wrap_size_t, SIZE_MAX. intros H.
  rewrite Z.mod_small; lia.
Qed.

Lemma round_halves_rounds h : rounds_halves_to h (round_halves h).
Proof.
  unfold rounds_halves_to, round_halves.
  destruct (0 <=? h) eqn:Hs; [apply Z.leb_le in Hs | apply Z.leb_gt in Hs].
  - pose proof (Z.div_mod (h + 1) 2 ltac:(lia)) as Hd.
    pose proof (Z.mod_pos_bound (h + 1) 2 ltac:(lia)) as Hm. lia.
  - pose proof (Z.div_mod (- h + 1) 2 ltac:(lia)) as Hd.
    pose proof (Z.mod_pos_bound (- h + 1) 2 ltac:(lia)) as Hm. lia.
Qed.

Lemma rounds_halves_to_unique h r r' :
  rounds_halves_to h r -> rounds_halves_to h r' -> r = r'.
Proof. unfold rounds_halves_to. lia. Qed.

Section ScoreProperties.
Context {F : Float64} {Sorter : StdSort}.

Lemma str_size_nonneg s : 0 <= str_size s.
Proof. unfold str_size. lia. Qed.

Lemma reward_points_rounded g :
  in_int (str_size (currentWord g) * 10) ->
  in_int (rounded_reward g) ->
  reward_points g = rounded_reward g.
Proof.
  intros Hlen Hr. unfold reward_points, rounded_reward, baseScore, reward in *.
  pose proof (str_size_nonneg (currentWord g)) as Hpos.
  assert (in_int (str_size (currentWord g))) as Hin
    by (unfold in_int, INT_MIN, INT_MAX in *; lia).
  rewrite (wrap_int_id _ Hin).
  replace (getDifficultyMultiplier2 g) with (multiplier_halves (g_difficulty g))
    by (unfold getDifficultyMultiplier2; destruct (g_difficulty g); reflexivity).
  destruct (customScores g !! str_size (currentWord g)) as [r|].
  - apply wrap_int_id, Hr.
  - rewrite (wrap_int_id (str_size (currentWord g) * 10)) by exact Hlen.
    rewrite (Z.mul_comm (str_size _) 10). apply wrap_int_id, Hr.
Qed.

Lemma updateScore_correct_guess g :
  currentWord g <> EmptyString -> lastGuessCorrect g = true ->
  updateScore g =
  updateMemoryUsage (set_score (wrap_int (g_score g + reward_points g)) g).
Proof.
  intros Hw Hc. unfold updateScore.
  rewrite bool_decide_eq_false_2 by exact Hw. rewrite Hc. reflexivity.
Qed.

Lemma updateScore_score g :
  currentWord g <> EmptyString -> lastGuessCorrect g = true ->
  score_fits 1 g ->
  g_score (updateScore g) = g_score g + rounded_reward g.
Proof.
  intros Hw Hc (Hlen & Hr & Hsum).
  rewrite updateScore_correct_guess by assumption. cbn.
  rewrite reward_points_rounded by assumption.
  apply wrap_int_id. replace (g_score g + rounded_reward g)
    with (g_score g + 1 * rounded_reward g) by lia. exact Hsum.
Qed.

Lemma updateScore_no_op g :
  currentWord g = EmptyString \/ lastGuessCorrect g = false ->
  updateScore g = g.
Proof.
  unfold updateScore. intros [Hw | Hc].
  - rewrite bool_decide_eq_true_2 by exact Hw. reflexivity.
  - rewrite Hc. rewrite orb_true_r. reflexivity.
Qed.

(** C2: with a target selected and the last guess correct, [updateScore]
    adds [round(reward x multiplier)] to the score, as long as the sums fit
    the type [int]; with the target "puzzle", difficulty Easy and no custom
    entry for length 6 that is 60; without a target, or after a wrong
    guess, the session is left as it was. *)
Theorem updateScore_adds_rounded_reward (g : Game) :
  (currentWord g <> EmptyString -> lastGuessCorrect g = true ->
   score_fits 1 g ->
   exists r,
     rounds_halves_to (reward g * multiplier_halves (g_difficulty g)) r /\
     g_score (updateScore g) = g_score g + r) /\
  (currentWord g = "puzzle"%string -> lastGuessCorrect g = true ->
   g_difficulty g = EASY -> customScores g !! 6 = None ->
   in_int (g_score g + 60) ->
   g_score (updateScore g) = g_score g + 60) /\
  (currentWord g = EmptyString \/ lastGuessCorrect g = false ->
   updateScore g = g).
Proof.
  split; [|split].
  - intros Hw Hc Hfit. exists (rounded_reward g). split.
    + apply round_halves_rounds.
    + apply updateScore_score; assumption.
  - intros Hw Hc Hd Hcustom Hsum.
    assert (rounded_reward g = 60) as Hr.
    { unfold rounded_reward, reward. rewrite Hw, Hd. cbn.
      change (str_size "puzzle") with 6 in *. rewrite Hcustom. reflexivity. }
    rewrite updateScore_score; [rewrite Hr; reflexivity
                               |rewrite Hw; discriminate|exact Hc|].
    unfold score_fits. rewrite Hr, Hw. change (str_size "puzzle") with 6.
    unfold in_int, INT_MIN, INT_MAX in *. lia.
  - apply updateScore_no_op.
Qed.

(** C10: [updateScore] does not clear the flag of the last guess, so two
    calls in a row, without a guess in between, add the reward twice. *)
Theorem updateScore_twice_adds_twice (g : Game) :
  currentWord g <> EmptyString -> lastGuessCorrect g = true ->
  score_fits 1 g -> score_fits 2 g ->
  lastGuessCorrect (updateScore g) = true /\
  g_score (updateScore g) = g_score g + rounded_reward g /\
  g_score (updateScore (updateScore g)) = g_score g + 2 * rounded_reward g.
Proof.
  intros Hw Hc Hfit1 Hfit2.
  pose proof (updateScore_score g Hw Hc Hfit1) as H1.
  pose proof (updateScore_correct_guess g Hw Hc) as Hg.
  assert (rounded_reward (updateScore g) = rounded_reward g) as Hr
    by (rewrite Hg; reflexivity).
  assert (currentWord (updateScore g) = currentWord g) as Hw'
    by (rewrite Hg; reflexivity).
  assert (lastGuessCorrect (updateScore g) = true) as Hc'
    by (rewrite Hg; exact Hc).
  split; [exact Hc'|]. split; [exact H1|].
  rewrite updateScore_score.
  - rewrite H1, Hr. lia.
  - rewrite Hw'. exact Hw.
  - exact Hc'.
  - destruct Hfit2 as (Hlen & Hrr & Hsum). unfold score_fits.
    rewrite Hw', Hr, H1. split; [exact Hlen|]. split; [exact Hrr|].
    replace (g_score g + rounded_reward g + 1 * rounded_reward g)
      with (g_score g + 2 * rounded_reward g) by lia. exact Hsum.
Qed.

End ScoreProperties.

Lemma updateScore_adds_rounded_reward_witness :
  (exists r,
     rounds_halves_to
       (reward sample_round * multiplier_halves (g_difficulty sample_round)) r /\
     g_score (updateScore sample_round) = g_score sample_round + r) /\
  g_score (updateScore sample_round) = g_score sample_round + 60.
Proof.
  split.
  - apply (updateScore_adds_rounded_reward sample_round).
    + discriminate.
    + reflexivity.
    + unfold score_fits, in_int, INT_MIN, INT_MAX.
      change (rounded_reward sample_round) with 60.
      change (str_size (currentWord sample_round)) with 6.
      change (g_score sample_round) with 0. lia.
  - apply (updateScore_adds_rounded_reward sample_round).
    + reflexivity.
    + reflexivity.
    + reflexivity.
    + reflexivity.
    + change (g_score sample_round) with 0.
      unfold in_int, INT_MIN, INT_MAX. lia.
Defined.

Lemma updateScore_twice_adds_twice_witness :
  currentWord sample_round <> EmptyString /\
  lastGuessCorrect sample_round = true /\
  score_fits 1 sample_round /\ score_fits 2 sample_round /\
  lastGuessCorrect (updateScore sample_round) = true /\
  g_score (updateScore sample_round) =
    g_score sample_round + rounded_reward sample_round /\
  g_score (updateScore (updateScore sample_round)) =
    g_score sample_round + 2 * rounded_reward sample_round.
Proof.
  assert (forall k, 0 <= k <= 2 -> score_fits k sample_round) as Hfit.
  { intros k Hk. unfold score_fits, in_int, INT_MIN, INT_MAX.
    change (rounded_reward sample_round) with 60.
    change (str_size (currentWord sample_round)) with 6.
    change (g_score sample_round) with 0. lia. }
  split; [discriminate|]. split; [reflexivity|].
  split; [apply Hfit; lia|]. split; [apply Hfit; lia|].
  apply (updateScore_twice_adds_twice sample_round).
  - discriminate.
  - reflexivity.
  - apply Hfit; lia.
  - apply Hfit; lia.
Defined.

(** ** Guessing *)

Section GuessProperties.
Context {F : Float64} {Sorter : StdSort}.

Lemma guess_delta_floor last now : 1 <= guess_delta last now.
Proof.
  unfold guess_delta. case_bool_decide; [|lia].
  destruct (duration_ms last now <=? 0) eqn:Hd; [lia|].
  apply Z.leb_gt in Hd. lia.
Qed.

Lemma wrap_size_t_succ z : 0 <= z < SIZE_MAX -> wrap_size_t (z + 1) = z + 1.
Proof. intros H. apply wrap_size_t_id. unfold in_size_t. lia. Qed.

Lemma wrap_int_succ z : INT_MIN <= z < INT_MAX -> wrap_int (z + 1) = z + 1.
Proof. intros H. apply wrap_int_id. unfold in_int. lia. Qed.

(** C7: [checkGuess] answers whether the guess equals the target up to
    letter case; it adds one to the lifetime guess counter, to the guess
    count of the metrics and to the attempts of the round, adds one to the
    correct-guess counter exactly when the answer is yes, and adds to the
    cumulative guess time a whole number of milliseconds that is at least
    1. *)
Theorem checkGuess_compares_and_counts (guess : string) (now restart : Z)
    (g : Game) :
  counters_fit g ->
  let result := fst (checkGuess guess now restart g) in
  let g' := snd (checkGuess guess now restart g) in
  (result = true <-> case_insensitively_equal guess (currentWord g)) /\
  lastGuessCorrect g' = result /\
  totalGuesses g' = totalGuesses g + 1 /\
  guessCount (metrics g') = guessCount (metrics g) + 1 /\
  g_attempts g' = g_attempts g + 1 /\
  correctGuesses g' = correctGuesses g + (if result then 1 else 0) /\
  exists delta,
    1 <= delta /\
    totalGuessTime (metrics g') =
      d_add (totalGuessTime (metrics g)) (d_of_Z delta).
Proof.
  intros (Hgc & Htg & Hcg & Hat). cbn.
  split; [apply caseInsensitiveCompare_spec|].
  split; [reflexivity|].
  split; [apply wrap_size_t_succ, Htg|].
  split; [apply wrap_size_t_succ, Hgc|].
  split; [apply wrap_int_succ, Hat|].
  split.
  - destruct (caseInsensitiveCompare guess (currentWord g)).
    + apply wrap_size_t_succ, Hcg.
    + lia.
  - exists (guess_delta (lastGuessStart g) now).
    split; [apply guess_delta_floor|reflexivity].
Qed.

End GuessProperties.

Lemma checkGuess_compares_and_counts_witness :
  counters_fit sample_selected /\
  let result := fst (checkGuess "PUZZLE" 1000400 1000500 sample_selected) in
  let g' := snd (checkGuess "PUZZLE" 1000400 1000500 sample_selected) in
  (result = true <->
   case_insensitively_equal "PUZZLE" (currentWord sample_selected)) /\
  lastGuessCorrect g' = result /\
  totalGuesses g' = totalGuesses sample_selected + 1 /\
  guessCount (metrics g') = guessCount (metrics sample_selected) + 1 /\
  g_attempts g' = g_attempts sample_selected + 1 /\
  correctGuesses g' =
    correctGuesses sample_selected + (if result then 1 else 0) /\
  exists delta,
    1 <= delta /\
    totalGuessTime (metrics g') =
      d_add (totalGuessTime (metrics sample_selected)) (d_of_Z delta).
Proof.
  assert (counters_fit sample_selected) as Hfit.
  { unfold counters_fit, SIZE_MAX, INT_MIN, INT_MAX. cbn. lia. }
  split; [exact Hfit|].
  apply (checkGuess_compares_and_counts "PUZZLE" 1000400 1000500
           sample_selected Hfit).
Defined.

(** ** Files that cannot be opened *)

Section OpenFailure.
Context {F : Float64} {Sorter : StdSort}.

(** C8: when the file cannot be opened, each of the four file operations
    returns failure and the session it returns is the session it was given:
    word bank, leaderboard, scores and every metric, the count of file
    operations and the I/O time included.  Nothing is written. *)
Theorem file_open_failure_changes_nothing (start finish : Z) (g : Game) :
  loadWordsFromFile None start finish g = (false, g) /\
  loadLeaderboardFromFile None start finish g = (false, g) /\
  saveLeaderboardToFile false start finish g = (false, None, g) /\
  saveMetricsToFile false start finish g = (false, None, g).
Proof. repeat split. Qed.

End OpenFailure.

(** ** Hints *)

Section HintProperties.
Context {F : Float64} {Sorter : StdSort}.

Lemma showHint_revealed_cases level g :
  let r := revealedPositions g in
  let r' := revealedPositions (snd (showHint level g)) in
  r' = r \/ r' = r ∪ {[ 0 ]} \/
  r' = r ∪ {[ 0 ]} ∪ {[ str_size (currentWord g) - 1 ]} \/
  r' = r ∪ {[ nextUnrevealedPosition g ]}.
Proof.
  cbn zeta. unfold showHint.
  repeat (case_bool_decide || destruct (_ <=? _)); cbn; auto.
Qed.

Lemma showHint_grows level g :
  revealedPositions g ⊆ revealedPositions (snd (showHint level g)).
Proof.
  pose proof (showHint_revealed_cases level g) as Hcases. cbn zeta in Hcases.
  destruct Hcases as [Hr|[Hr|[Hr|Hr]]]; rewrite Hr; clear Hr;
    intros x Hx; repeat (apply elem_of_union; left); exact Hx.
Qed.

Lemma all_revealed_size g :
  all_revealed g ->
  str_size (currentWord g) <= Z.of_nat (size (revealedPositions g)).
Proof.
  intros Hall. unfold all_revealed, str_size in *.
  set (n := String.length (currentWord g)) in *.
  assert (list_to_set (seqZ 0 (Z.of_nat n)) ⊆ revealedPositions g) as Hsub.
  { intros i Hi. apply elem_of_list_to_set, elem_of_seqZ in Hi.
    apply Hall. lia. }
  apply subseteq_size in Hsub.
  rewrite size_list_to_set in Hsub by apply NoDup_seqZ.
  rewrite length_seqZ in Hsub. lia.
Qed.

(** C6: a hint never removes a revealed position, so after level 1 and then
    level 2 the revealed set contains, and is at least as large as, the set
    after level 1 alone; when every position is already revealed, or no
    word is selected, a hint of any level leaves the session as it was and
    the output says that no hint is given. *)
Theorem showHint_reveals_monotonically (g : Game) :
  (let after1 := snd (showHint 1 g) in
   let after12 := snd (showHint 2 after1) in
   revealedPositions g ⊆ revealedPositions after1 /\
   revealedPositions after1 ⊆ revealedPositions after12 /\
   (size (revealedPositions after1) <= size (revealedPositions after12))%nat) /\
  (forall level,
     revealedPositions g ⊆ revealedPositions (snd (showHint level g))) /\
  (forall level,
     currentWord g = EmptyString \/ all_revealed g ->
     snd (showHint level g) = g /\ signals_no_hint (fst (showHint level g))).
Proof.
  split; [|split].
  - cbn zeta. split; [apply showHint_grows|].
    split; [apply showHint_grows|]. apply subseteq_size, showHint_grows.
  - intros level. apply showHint_grows.
  - intros level Hcase. unfold showHint.
    case_bool_decide as Hw.
    + split; [reflexivity|left; reflexivity].
    + destruct Hcase as [Hempty | Hall]; [contradiction|].
      apply all_revealed_size in Hall. apply Z.leb_le in Hall.
      rewrite Hall. split; [reflexivity|right; reflexivity].
Qed.

End HintProperties.

(** ** Scrambling *)

Lemma swap_Permutation {A} (l : list A) i j : swap l i j ≡ₚ l.
Proof.
  unfold swap. destruct (l !! i) as [x|] eqn:Hi; [|reflexivity].
  destruct (l !! j) as [y|] eqn:Hj; [|reflexivity].
  apply (Permutation_insert_swap l j i y x); assumption.
Qed.

Lemma shuffle_from_Permutation {A} steps i (l : list A) e :
  fst (shuffle_from steps i l e) ≡ₚ l.
Proof.
  revert i l e. induction steps as [|k IH]; intros i l e; simpl.
  - reflexivity.
  - rewrite IH. apply swap_Permutation.
Qed.

Lemma shuffle_Permutation {A} (l : list A) e : fst (shuffle l e) ≡ₚ l.
Proof. apply shuffle_from_Permutation. Qed.

Lemma length_list_ascii_of_string s :
  length (list_ascii_of_string s) = String.length s.
Proof. induction s; simpl; congruence. Qed.

Section ScrambleProperties.
Context {F : Float64} {Sorter : StdSort}.

Lemma scrambleWord_chars word g :
  fst (scrambleWord word g) = string_of_list_ascii (scrambled_chars word g).
Proof.
  unfold scrambleWord, scrambled_chars.
  destruct (1 <? str_size word); [|reflexivity].
  destruct (shuffle _ _); reflexivity.
Qed.

Lemma scrambleWord_count word g :
  scrambleCount (metrics (snd (scrambleWord word g))) =
  wrap_size_t (scrambleCount (metrics g) + 1).
Proof.
  unfold scrambleWord.
  destruct (if 1 <? str_size word then _ else _); reflexivity.
Qed.

(** C4: the word that [scrambleWord] returns has the characters of its
    argument, each as many times, so also its length; a word of at most one
    character is returned as it is; and the call adds one to the count of
    scrambles. *)
Theorem scrambleWord_permutes (word : string) (g : Game) :
  0 <= scrambleCount (metrics g) < SIZE_MAX ->
  let scrambled := fst (scrambleWord word g) in
  list_ascii_of_string scrambled ≡ₚ list_ascii_of_string word /\
  String.length scrambled = String.length word /\
  ((String.length word <= 1)%nat -> scrambled = word) /\
  scrambleCount (metrics (snd (scrambleWord word g))) =
    scrambleCount (metrics g) + 1.
Proof.
  intros Hcount. cbn zeta. rewrite scrambleWord_chars, scrambleWord_count.
  rewrite list_ascii_of_string_of_list_ascii.
  assert (scrambled_chars word g ≡ₚ list_ascii_of_string word) as Hperm.
  { unfold scrambled_chars. destruct (1 <? str_size word); [|reflexivity].
    apply shuffle_Permutation. }
  split; [exact Hperm|]. split; [|split].
  - rewrite <- (length_list_ascii_of_string (string_of_list_ascii _)).
    rewrite list_ascii_of_string_of_list_ascii.
    rewrite <- (length_list_ascii_of_string word).
    apply Permutation_length, Hperm.
  - intros Hshort. unfold scrambled_chars, str_size.
    replace (1 <? Z.of_nat (String.length word)) with false
      by (symmetry; apply Z.ltb_ge; lia).
    apply string_of_list_ascii_of_string.
  - apply wrap_size_t_succ, Hcount.
Qed.

End ScrambleProperties.

Lemma scrambleWord_permutes_witness :
  0 <= scrambleCount (metrics sample_game) < SIZE_MAX /\
  let scrambled := fst (scrambleWord "puzzle" sample_game) in
  list_ascii_of_string scrambled ≡ₚ list_ascii_of_string "puzzle" /\
  String.length scrambled = String.length "puzzle" /\
  ((String.length "puzzle" <= 1)%nat -> scrambled = "puzzle"%string) /\
  scrambleCount (metrics (snd (scrambleWord "puzzle" sample_game))) =
    scrambleCount (metrics sample_game) + 1.
Proof.
  assert (0 <= scrambleCount (metrics sample_game) < SIZE_MAX) as Hcount
    by (unfold SIZE_MAX; cbn; lia).
  split; [exact Hcount|].
  apply (scrambleWord_permutes "puzzle" sample_game Hcount).
Defined.

(** ** Sorting *)

Lemma strict_weak_on_subseteq {A} (comp : A -> A -> bool) (l1 l2 : list A) :
  l1 ⊆ l2 -> strict_weak_on comp l2 -> strict_weak_on comp l1.
Proof.
  intros Hsub [Hasym Hco]. split.
  - intros a b Ha Hb. apply Hasym; apply Hsub; assumption.
  - intros a b c Ha Hb Hc. apply Hco; apply Hsub; assumption.
Qed.

Section SortProperties.
Context {A : Type} (comp : A -> A -> bool).

Lemma unguarded_linear_insert_Permutation val below above :
  unguarded_linear_insert comp val below above ≡ₚ
  val :: reverse below ++ above.
Proof.
  revert above. induction below as [|next below IH]; intros above; simpl.
  - reflexivity.
  - destruct (comp val next).
    + rewrite IH, reverse_cons, <- app_assoc. reflexivity.
    + rewrite Permutation_middle. reflexivity.
Qed.

Lemma linear_insert_Permutation sorted val :
  linear_insert comp sorted val ≡ₚ val :: sorted.
Proof.
  destruct sorted as [|first sorted]; [reflexivity|].
  unfold linear_insert. destruct (comp val first); [reflexivity|].
  rewrite unguarded_linear_insert_Permutation, reverse_involutive, app_nil_r.
  reflexivity.
Qed.

Lemma foldl_linear_insert_Permutation sorted l :
  foldl (linear_insert comp) sorted l ≡ₚ sorted ++ l.
Proof.
  revert sorted. induction l as [|x l IH]; intros sorted; simpl.
  - rewrite app_nil_r. reflexivity.
  - rewrite IH, linear_insert_Permutation.
    rewrite (Permutation_middle sorted l x). reflexivity.
Qed.

Lemma insertion_sort_Permutation l : insertion_sort comp l ≡ₚ l.
Proof. apply foldl_linear_insert_Permutation. Qed.

(** An element put between two parts of an ordered sequence: it goes
    before none of the first part, and none of the second part goes before
    it. *)
Lemma ordered_by_middle l1 val l2 :
  ordered_by comp (l1 ++ l2) ->
  Forall (fun p => comp val p = false) l1 ->
  Forall (fun y => comp y val = false) l2 ->
  ordered_by comp (l1 ++ val :: l2).
Proof.
  unfold ordered_by. rewrite !StronglySorted_app, StronglySorted_cons.
  intros (Hcross & H1 & H2) Hl1 Hl2. rewrite Forall_forall in Hl1.
  split; [|split; [exact H1|split; [exact Hl2|exact H2]]].
  intros x1 x2 Hx1 Hx2. apply elem_of_cons in Hx2 as [->|Hx2].
  - apply Hl1, Hx1.
  - apply Hcross; assumption.
Qed.

Lemma unguarded_linear_insert_ordered val below above :
  strict_weak_on comp (val :: below ++ above) ->
  ordered_by comp (reverse below ++ above) ->
  Forall (fun y => comp val y = true) above ->
  ordered_by comp (unguarded_linear_insert comp val below above).
Proof.
  revert above.
  induction below as [|next below IH]; intros above Hswo Hord Hpassed.
  - simpl in *. constructor; [exact Hord|].
    rewrite Forall_forall in Hpassed |- *. intros y Hy.
    apply (proj1 Hswo); [left|right; exact Hy|apply Hpassed, Hy].
  - simpl. destruct (comp val next) eqn:Hnext.
    + apply IH.
      * eapply strict_weak_on_subseteq; [|exact Hswo].
        intros z. rewrite !elem_of_cons, !elem_of_app, !elem_of_cons. tauto.
      * rewrite reverse_cons, <- app_assoc in Hord. exact Hord.
      * constructor; assumption.
    + apply ordered_by_middle; [exact Hord| |].
      * rewrite Forall_forall. intros p Hp.
        rewrite reverse_cons, elem_of_app, elem_of_reverse,
          list_elem_of_singleton in Hp.
        destruct Hp as [Hp| ->]; [|exact Hnext].
        destruct (comp val p) eqn:Hvp; [|reflexivity].
        assert (comp next p = false) as Hnp.
        { unfold ordered_by in Hord.
          rewrite reverse_cons, <- app_assoc in Hord.
          apply StronglySorted_app in Hord as (Hcross & _ & _).
          apply Hcross; [apply elem_of_reverse, Hp|left]. }
        destruct (proj2 Hswo val next p) as [Hvn|Hnp'];
          [left|right; left|right; right; apply elem_of_app; left; exact Hp
          |exact Hvp|congruence|congruence].
      * rewrite Forall_forall in Hpassed |- *. intros y Hy.
        apply (proj1 Hswo); [left| |apply Hpassed, Hy].
        right. right. apply elem_of_app. right. exact Hy.
Qed.

Lemma linear_insert_ordered sorted val :
  strict_weak_on comp (val :: sorted) ->
  ordered_by comp sorted -> ordered_by comp (linear_insert comp sorted val).
Proof.
  intros Hswo Hord. destruct sorted as [|first sorted].
  - repeat constructor.
  - unfold linear_insert. destruct (comp val first) eqn:Hfirst.
    + constructor; [exact Hord|].
      rewrite Forall_forall. intros y Hy.
      destruct (comp y val) eqn:Hyv; [|reflexivity].
      apply elem_of_cons in Hy as [->|Hy].
      * rewrite (proj1 Hswo val first) in Hyv;
          [discriminate|left|right; left|exact Hfirst].
      * apply StronglySorted_inv in Hord as [_ Hfirst'].
        rewrite Forall_forall in Hfirst'.
        destruct (proj2 Hswo y first val) as [Hyf|Hfv];
          [right; right; exact Hy|right; left|left|exact Hyv| |].
        -- rewrite (Hfirst' y Hy) in Hyf. discriminate.
        -- rewrite (proj1 Hswo val first) in Hfv;
             [discriminate|left|right; left|exact Hfirst].
    + apply unguarded_linear_insert_ordered.
      * eapply strict_weak_on_subseteq; [|exact Hswo].
        intros z. rewrite app_nil_r, !elem_of_cons, elem_of_reverse,
          !elem_of_cons. tauto.
      * rewrite reverse_involutive, app_nil_r. exact Hord.
      * constructor.
Qed.

Lemma foldl_linear_insert_ordered sorted l :
  strict_weak_on comp (sorted ++ l) -> ordered_by comp sorted ->
  ordered_by comp (foldl (linear_insert comp) sorted l).
Proof.
  revert sorted. induction l as [|x l IH]; intros sorted Hswo Hord; simpl.
  - exact Hord.
  - apply IH.
    + eapply strict_weak_on_subseteq; [|exact Hswo].
      intros z. rewrite !elem_of_app, linear_insert_Permutation,
        !elem_of_cons. tauto.
    + apply linear_insert_ordered; [|exact Hord].
      eapply strict_weak_on_subseteq; [|exact Hswo].
      intros z. rewrite !elem_of_app, !elem_of_cons. tauto.
Qed.

Lemma insertion_sort_ordered l :
  strict_weak_on comp l -> ordered_by comp (insertion_sort comp l).
Proof. intros Hswo. apply foldl_linear_insert_ordered; [exact Hswo|constructor]. Qed.

(** A sequence in which every element goes strictly before the ones that
    follow it is the only ordered arrangement of its elements. *)
Lemma strictly_ordered_unique l1 l2 :
  StronglySorted (fun a b => comp a b = true) l2 ->
  (forall a, a ∈ l2 -> comp a a = false) ->
  l1 ≡ₚ l2 -> ordered_by comp l1 -> l1 = l2.
Proof.
  unfold ordered_by. intros Hstrict. revert l1.
  induction Hstrict as [|x l2 Hs IH Hx]; intros l1 Hirr Hperm Hord.
  - apply Permutation_nil_r. exact Hperm.
  - destruct l1 as [|y l1];
      [apply Permutation_nil_cons in Hperm; contradiction|].
    apply StronglySorted_inv in Hord as [Hord Hy].
    assert (y = x) as ->.
    { assert (y ∈ x :: l2) as Hin
        by (rewrite <- Hperm; apply elem_of_cons; left; reflexivity).
      apply elem_of_cons in Hin as [Heq|Hin]; [exact Heq|].
      rewrite Forall_forall in Hx. pose proof (Hx y Hin) as Hxy.
      assert (x ∈ y :: l1) as Hin'
        by (rewrite Hperm; apply elem_of_cons; left; reflexivity).
      apply elem_of_cons in Hin' as [Heq|Hin']; [congruence|].
      rewrite Forall_forall in Hy. rewrite (Hy x Hin') in Hxy. discriminate. }
    f_equal. apply IH.
    + intros a Ha. apply Hirr. apply elem_of_cons. right. exact Ha.
    + apply (Permutation_cons_inv Hperm).
    + exact Hord.
Qed.

Lemma strictly_ordered_strict_weak l :
  (forall a b, comp a b = true -> comp b a = false) ->
  StronglySorted (fun a b => comp a b = true) l -> strict_weak_on comp l.
Proof.
  intros Hasym Hstrict. split; [intros a b _ _; apply Hasym|].
  induction Hstrict as [|x l Hs IH Hx]; intros a b c Ha Hb Hc Hac.
  - apply elem_of_nil in Ha. contradiction.
  - rewrite Forall_forall in Hx.
    apply elem_of_cons in Hb as [->|Hb].
    + apply elem_of_cons in Hc as [->|Hc]; [left; exact Hac|].
      right. apply Hx, Hc.
    + apply elem_of_cons in Ha as [->|Ha]; [left; apply Hx, Hb|].
      apply elem_of_cons in Hc as [->|Hc].
      * pose proof (Hx a Ha) as Hxa. apply Hasym in Hxa. congruence.
      * apply IH; assumption.
Qed.

End SortProperties.

Lemma Insertion_spec : StdSortSpec Insertion.
Proof.
  split. intros A comp l Hswo. split.
  - apply insertion_sort_Permutation.
  - apply insertion_sort_ordered, Hswo.
Qed.

(** ** Order and ranks of the leaderboard *)

Section LeaderboardOrder.
Context {F : Float64} {Sorter : StdSort}.

Lemma entry_before_stands a b : entry_before b a = false -> stands_before a b.
Proof.
  unfold entry_before, stands_before. case_bool_decide as Hs.
  - intros Hgt. right. split; [congruence|exact Hgt].
  - intros Hlt. apply bool_decide_eq_false in Hlt. left. lia.
Qed.

Lemma ordered_by_leaderboard_sorted l :
  ordered_by entry_before l -> leaderboard_sorted l.
Proof.
  unfold ordered_by, leaderboard_sorted.
  induction 1 as [|x l Hs IH Hx]; constructor; [exact IH|].
  eapply Forall_impl; [exact Hx|]. intros b. apply entry_before_stands.
Qed.

Lemma Forall_imap_preserved (Q : LeaderboardEntry -> Prop)
    (f : nat -> LeaderboardEntry -> LeaderboardEntry) l :
  (forall i e, Q e -> Q (f i e)) -> Forall Q l -> Forall Q (imap f l).
Proof.
  intros Hf Hl. revert f Hf.
  induction Hl as [|x l Hx Hl IH]; intros f Hf; simpl; constructor.
  - apply Hf, Hx.
  - apply IH. intros i e. apply Hf.
Qed.

Lemma with_rank_sorted (r : nat -> Z) l :
  leaderboard_sorted l ->
  leaderboard_sorted (imap (fun i e => with_rank (r i) e) l).
Proof.
  unfold leaderboard_sorted. intros Hsorted. revert r.
  induction Hsorted as [|x l Hs IH Hx]; intros r; simpl; constructor.
  - apply (IH (r ∘ S)).
  - apply (Forall_imap_preserved (stands_before (with_rank (r 0%nat) x))
             (fun i => with_rank (r (S i))));
      [intros i e He; exact He|exact Hx].
Qed.

Lemma assign_ranks_sorted l :
  leaderboard_sorted l -> leaderboard_sorted (assign_ranks l).
Proof. apply (with_rank_sorted (fun i => wrap_int (Z.of_nat i + 1))). Qed.

Lemma assign_ranks_contiguous l :
  Z.of_nat (length l) <= INT_MAX -> ranks_contiguous (assign_ranks l).
Proof.
  intros Hlen. unfold ranks_contiguous, assign_ranks.
  rewrite length_imap. apply list_eq. intros i.
  rewrite list_lookup_fmap, list_lookup_imap.
  destruct (l !! i) as [e|] eqn:Hi; simpl.
  - apply lookup_lt_Some in Hi. symmetry. apply lookup_seqZ.
    split; [|lia]. rewrite wrap_int_id; [lia|].
    unfold in_int, INT_MIN, INT_MAX in *. lia.
  - apply lookup_ge_None in Hi. symmetry. apply lookup_seqZ_ge. lia.
Qed.

Lemma length_assign_ranks l : length (assign_ranks l) = length l.
Proof. apply length_imap. Qed.

Context {FO : Float64Order F}.

Lemma d_gt_asym a b : d_gt a b = true -> d_gt b a = false.
Proof.
  intros Hab. destruct (d_gt b a) eqn:Hba; [|reflexivity].
  pose proof (d_gt_trans a b a Hab Hba) as Haa.
  rewrite d_gt_irrefl in Haa. discriminate.
Qed.

Lemma entry_before_asym a b :
  entry_before a b = true -> entry_before b a = false.
Proof.
  unfold entry_before.
  destruct (decide (score a = score b)) as [Hs|Hs].
  - rewrite (bool_decide_eq_true_2 (score a = score b)) by congruence.
    rewrite (bool_decide_eq_true_2 (score b = score a)) by congruence.
    apply d_gt_asym.
  - rewrite (bool_decide_eq_false_2 (score a = score b)) by congruence.
    rewrite (bool_decide_eq_false_2 (score b = score a)) by congruence.
    intros Hgt. apply bool_decide_eq_true in Hgt.
    apply bool_decide_eq_false. lia.
Qed.

Lemma entry_before_cotrans a b c :
  accuracy_is_number b -> entry_before a c = true ->
  entry_before a b = true \/ entry_before b c = true.
Proof.
  unfold accuracy_is_number, entry_before. intros Hb.
  destruct (decide (score a = score c)) as [Hac|Hac];
    destruct (decide (score a = score b)) as [Hab|Hab];
    destruct (decide (score b = score c)) as [Hbc|Hbc];
    try (exfalso; congruence);
    rewrite ?(bool_decide_eq_true_2 _ Hac), ?(bool_decide_eq_false_2 _ Hac),
      ?(bool_decide_eq_true_2 _ Hab), ?(bool_decide_eq_false_2 _ Hab),
      ?(bool_decide_eq_true_2 _ Hbc), ?(bool_decide_eq_false_2 _ Hbc),
      ?bool_decide_eq_true; intros Hgt.
  - apply d_gt_cotrans; assumption.
  - lia.
  - lia.
  - lia.
  - lia.
Qed.

Lemma entry_before_strict_weak l :
  Forall accuracy_is_number l -> strict_weak_on entry_before l.
Proof.
  intros Hnum. rewrite Forall_forall in Hnum. split.
  - intros a b _ _. apply entry_before_asym.
  - intros a b c _ Hb _. apply entry_before_cotrans, Hnum, Hb.
Qed.

Context {SS : StdSortSpec Sorter}.

Lemma std_sort_entries l :
  Forall accuracy_is_number l ->
  std_sort entry_before l ≡ₚ l /\
  ordered_by entry_before (std_sort entry_before l).
Proof. intros Hnum. apply std_sort_spec, entry_before_strict_weak, Hnum. Qed.

Lemma sorted_ranked_leaderboard l :
  Forall accuracy_is_number l -> Z.of_nat (length l) <= INT_MAX ->
  leaderboard_sorted (assign_ranks (std_sort entry_before l)) /\
  ranks_contiguous (assign_ranks (std_sort entry_before l)).
Proof.
  intros Hnum Hlen. destruct (std_sort_entries l Hnum) as [Hperm Hord]. split.
  - apply assign_ranks_sorted, ordered_by_leaderboard_sorted, Hord.
  - apply assign_ranks_contiguous.
    rewrite (Permutation_length Hperm). exact Hlen.
Qed.

Lemma assign_ranks_numbers l :
  Forall accuracy_is_number l -> Forall accuracy_is_number (assign_ranks l).
Proof.
  intros Hnum. apply Forall_imap_preserved; [|exact Hnum].
  intros i e He. exact He.
Qed.

Lemma std_sort_numbers l :
  Forall accuracy_is_number l ->
  Forall accuracy_is_number (assign_ranks (std_sort entry_before l)).
Proof.
  intros Hnum. apply assign_ranks_numbers.
  rewrite (proj1 (std_sort_entries l Hnum)). exact Hnum.
Qed.

Context {FN : Float64Numbers F} {SM : StdSortMoves Sorter}.

Lemma session_accuracy_number g :
  guesses_in_size_t g -> d_isnan (session_accuracy g) = false.
Proof.
  intros [Hcorrect Htotal]. unfold session_accuracy.
  case_bool_decide as Hzero; [apply d_of_Z_number|].
  apply d_mul_number.
  - apply d_div_number; assumption.
  - unfold in_size_t, SIZE_MAX. lia.
  - discriminate.
Qed.

Lemma ranked_leaderboard l :
  Z.of_nat (length l) <= INT_MAX ->
  ranks_contiguous (assign_ranks (std_sort entry_before l)) /\
  length (assign_ranks (std_sort entry_before l)) = length l.
Proof.
  intros Hlen.
  pose proof (Permutation_length (std_sort_moves _ entry_before l)) as Hsame.
  split.
  - apply assign_ranks_contiguous. rewrite Hsame. exact Hlen.
  - rewrite length_assign_ranks. exact Hsame.
Qed.

(** C3, amended: after [updateLeaderboard], and after a
    [loadLeaderboardFromFile] that opened its file, the ranks are
    1, 2, ..., N along the leaderboard, which has at most [INT_MAX]
    entries; and when no accuracy among the entries that are sorted is NaN,
    the leaderboard is in descending order of score, entries of equal score
    in descending order of accuracy, and again holds no NaN accuracy.  The
    accuracy of the entry that [updateLeaderboard] adds is a number, so
    only a loaded file can bring NaN in. *)
Theorem leaderboard_sorted_and_ranked (g : Game) :
  (forall averageRoundTime,
     Z.of_nat (length (leaderboard g)) < INT_MAX ->
     let lb := leaderboard (updateLeaderboard averageRoundTime g) in
     ranks_contiguous lb /\
     length lb = S (length (leaderboard g)) /\
     (guesses_in_size_t g ->
      Forall accuracy_is_number (leaderboard g) ->
      leaderboard_sorted lb /\ Forall accuracy_is_number lb)) /\
  (forall contents start finish,
     Z.of_nat (length (loaded_rows contents)) <= INT_MAX ->
     let loaded := loadLeaderboardFromFile (Some contents) start finish g in
     fst loaded = true /\
     ranks_contiguous (leaderboard (snd loaded)) /\
     length (leaderboard (snd loaded)) = length (loaded_rows contents) /\
     (Forall accuracy_is_number (loaded_rows contents) ->
      leaderboard_sorted (leaderboard (snd loaded)) /\
      Forall accuracy_is_number (leaderboard (snd loaded)))).
Proof.
  split.
  - intros t Hlen. cbn.
    set (entry := new_entry t (wrap_int (gamesPlayed g + 1)) g).
    assert (Z.of_nat (length (leaderboard g ++ [entry])) <= INT_MAX) as Hl.
    { rewrite length_app. simpl. lia. }
    destruct (ranked_leaderboard _ Hl) as [Hranks Hsame].
    split; [exact Hranks|]. split.
    { rewrite Hsame, length_app. simpl. lia. }
    intros Hcounters Hnum.
    assert (Forall accuracy_is_number (leaderboard g ++ [entry])) as Hall.
    { apply Forall_app. split; [exact Hnum|]. repeat constructor.
      apply session_accuracy_number, Hcounters. }
    split; [|apply std_sort_numbers, Hall].
    apply (sorted_ranked_leaderboard _ Hall Hl).
  - intros contents start finish Hlen. cbn.
    destruct (ranked_leaderboard _ Hlen) as [Hranks Hsame].
    split; [reflexivity|]. split; [exact Hranks|]. split; [exact Hsame|].
    intros Hnum. split; [|apply std_sort_numbers, Hnum].
    apply (sorted_ranked_leaderboard _ Hnum Hlen).
Qed.

End LeaderboardOrder.

Lemma Whole_float_order : Float64Order Whole.float.
Proof.
  split.
  - intros [x|]; cbn; [|reflexivity]. apply bool_decide_eq_false. lia.
  - intros [x|] [y|] [z|]; cbn; try discriminate.
    rewrite !bool_decide_eq_true. lia.
  - intros [x|] [y|] [z|]; cbn; try discriminate.
    rewrite !bool_decide_eq_true. lia.
Qed.

Lemma Whole_float_numbers : Float64Numbers Whole.float.
Proof.
  split.
  - intros z. reflexivity.
  - intros a b _ _ Hb. cbn. rewrite bool_decide_eq_false_2 by exact Hb.
    reflexivity.
  - intros [x|] z Hx _ _; [reflexivity|discriminate].
Qed.

Lemma Insertion_moves : StdSortMoves Insertion.
Proof. split. intros A comp l. apply insertion_sort_Permutation. Qed.

(** ** Printing and reading integers *)

Lemma digits_value_stop rest acc :
  starts_with_digit rest = false -> digits_value rest acc = acc.
Proof.
  destruct rest as [|c rest]; simpl; [reflexivity|].
  intros ->. reflexivity.
Qed.

Lemma digits_value_uint_acc d rest acc :
  starts_with_digit rest = false ->
  digits_value (NilEmpty.string_of_uint d ++ rest) (Z.pos acc) =
  Z.pos (Pos.of_uint_acc d acc).
Proof.
  intros Hrest. revert acc.
  induction d as [|d IH|d IH|d IH|d IH|d IH|d IH|d IH|d IH|d IH|d IH];
    intros acc;
    [apply digits_value_stop, Hrest | ..];
    simpl; rewrite <- IH; f_equal; unfold digit_value;
    match goal with
    | |- context [code ?c] => let v := eval vm_compute in (code c) in
                              change (code c) with v
    end; lia.
Qed.

Lemma digits_value_uint d rest :
  starts_with_digit rest = false ->
  digits_value (NilEmpty.string_of_uint d ++ rest) 0 = Z.of_uint d.
Proof.
  intros Hrest. unfold Z.of_uint.
  induction d as [|d IH|d IH|d IH|d IH|d IH|d IH|d IH|d IH|d IH|d IH];
    [apply digits_value_stop, Hrest | exact IH | ..];
    simpl; rewrite <- (digits_value_uint_acc d rest _ Hrest); reflexivity.
Qed.

Lemma is_digit_code c : is_digit c = true -> 48 <= code c <= 57.
Proof.
  unfold is_digit. intros H. apply andb_true_iff in H as [H1 H2].
  apply Z.leb_le in H1. apply Z.leb_le in H2. lia.
Qed.

Lemma is_digit_not_space c : is_digit c = true -> is_space c = false.
Proof.
  intros H. apply is_digit_code in H. unfold is_space.
  apply orb_false_iff. split.
  - apply Z.eqb_neq. lia.
  - apply andb_false_iff. right. apply Z.leb_gt. lia.
Qed.

Lemma is_digit_not_char c (x : ascii) :
  is_digit c = true -> code x < 48 -> c <> x.
Proof. intros H Hx ->. apply is_digit_code in H. lia. Qed.

(** [stoi] on a text that starts with a digit, and on a minus sign followed
    by one. *)
Lemma stoi_unsigned s :
  starts_with_digit s = true ->
  stoi s =
  if (INT_MIN <=? digits_value s 0) && (digits_value s 0 <=? INT_MAX)
  then Some (digits_value s 0) else None.
Proof.
  destruct s as [|c s]; [discriminate|]. intros Hc. simpl in Hc.
  unfold stoi. cbn [skip_spaces]. rewrite (is_digit_not_space c Hc).
  rewrite (bool_decide_eq_false_2 (c = "-"%char))
    by (apply is_digit_not_char; [exact Hc|vm_compute; reflexivity]).
  rewrite (bool_decide_eq_false_2 (c = "+"%char))
    by (apply is_digit_not_char; [exact Hc|vm_compute; reflexivity]).
  cbn [starts_with_digit]. rewrite Hc. reflexivity.
Qed.

Lemma stoi_negative s :
  starts_with_digit s = true ->
  stoi (String "-" s) =
  if (INT_MIN <=? - digits_value s 0) && (- digits_value s 0 <=? INT_MAX)
  then Some (- digits_value s 0) else None.
Proof.
  intros Hs. unfold stoi. cbn [skip_spaces].
  change (is_space "-") with false. cbn iota.
  rewrite (bool_decide_eq_true_2 ("-"%char = "-"%char)) by reflexivity.
  rewrite Hs. reflexivity.
Qed.

Lemma string_of_uint_starts d rest :
  starts_with_digit (NilZero.string_of_uint d ++ rest) = true.
Proof. destruct d; reflexivity. Qed.

Lemma string_of_uint_value d rest :
  starts_with_digit rest = false ->
  digits_value (NilZero.string_of_uint d ++ rest) 0 = Z.of_uint d.
Proof.
  intros Hrest. destruct d; try apply (digits_value_uint _ rest Hrest).
  simpl. apply digits_value_stop, Hrest.
Qed.

Lemma print_int_pos p : print_int (Z.pos p) = NilZero.string_of_uint (Pos.to_uint p).
Proof. reflexivity. Qed.

Lemma print_int_neg p :
  print_int (Z.neg p) = String "-" (NilZero.string_of_uint (Pos.to_uint p)).
Proof. reflexivity. Qed.

Lemma of_uint_to_uint p : Z.of_uint (Pos.to_uint p) = Z.pos p.
Proof. exact (DecimalZ.of_to (Z.pos p)). Qed.

(** The digits that [print_int] writes, followed by anything that is not a
    digit, read back as the number. *)
Lemma print_int_value z rest :
  starts_with_digit rest = false ->
  exists (negative : bool) (body : string),
    (print_int z ++ rest)%string =
      (if negative then String "-" body else body) /\
    negative = (z <? 0) /\
    starts_with_digit body = true /\
    digits_value body 0 = Z.abs z.
Proof.
  intros Hrest. destruct z as [|p|p].
  - exists false, (String "0" rest). repeat split.
    simpl. apply digits_value_stop, Hrest.
  - exists false, (NilZero.string_of_uint (Pos.to_uint p) ++ rest)%string.
    rewrite print_int_pos. repeat split.
    + apply string_of_uint_starts.
    + rewrite (string_of_uint_value _ _ Hrest). apply of_uint_to_uint.
  - exists true, (NilZero.string_of_uint (Pos.to_uint p) ++ rest)%string.
    rewrite print_int_neg. repeat split.
    + apply string_of_uint_starts.
    + rewrite (string_of_uint_value _ _ Hrest). apply of_uint_to_uint.
Qed.

Lemma stoi_print_int_prefix z rest :
  in_int z -> starts_with_digit rest = false ->
  stoi (print_int z ++ rest) = Some z.
Proof.
  intros Hz Hrest.
  destruct (print_int_value z rest Hrest) as (neg & body & -> & -> & Hb & Hv).
  assert ((INT_MIN <=? z) && (z <=? INT_MAX) = true) as Hrange.
  { unfold in_int in Hz. apply andb_true_iff.
    split; apply Z.leb_le; lia. }
  destruct (z <? 0) eqn:Hsign;
    [apply Z.ltb_lt in Hsign | apply Z.ltb_ge in Hsign].
  - rewrite (stoi_negative body Hb), Hv.
    replace (- Z.abs z) with z by lia. rewrite Hrange. reflexivity.
  - rewrite (stoi_unsigned body Hb), Hv.
    replace (Z.abs z) with z by lia. rewrite Hrange. reflexivity.
Qed.

Lemma string_app_cons c (s t : string) :
  (String c s ++ t)%string = String c (s ++ t).
Proof. reflexivity. Qed.

Lemma string_app_empty_l (t : string) : (EmptyString ++ t)%string = t.
Proof. reflexivity. Qed.

Lemma string_app_empty_r (s : string) : (s ++ EmptyString)%string = s.
Proof.
  induction s as [|c s IH]; [reflexivity|].
  rewrite string_app_cons, IH. reflexivity.
Qed.

Lemma stoi_print_int z : in_int z -> stoi (print_int z) = Some z.
Proof.
  intros Hz. rewrite <- (string_app_empty_r (print_int z)).
  apply stoi_print_int_prefix; [exact Hz|reflexivity].
Qed.

(** ** Splitting text *)

Lemma count_char_app d (a b : string) :
  count_char d (a ++ b) = (count_char d a + count_char d b)%nat.
Proof.
  induction a as [|c a IH]; [reflexivity|].
  rewrite string_app_cons. simpl. rewrite IH. lia.
Qed.

Lemma ends_with_app d (a b : string) :
  b <> EmptyString -> ends_with d (a ++ b) = ends_with d b.
Proof.
  intros Hb. induction a as [|c a IH]; [reflexivity|].
  rewrite string_app_cons. simpl.
  destruct (a ++ b)%string eqn:Hab; [|exact IH].
  destruct a; [|discriminate]. rewrite string_app_empty_l in Hab. contradiction.
Qed.

Lemma count_char_forallb p d s :
  string_forallb p s = true -> p d = false -> count_char d s = 0%nat.
Proof.
  intros Hs Hd. induction s as [|c s IH]; [reflexivity|].
  simpl in *. apply andb_true_iff in Hs as [Hc Hs].
  rewrite (IH Hs). rewrite bool_decide_eq_false_2; [reflexivity|].
  intros ->. congruence.
Qed.

Lemma split_nonempty (s : string) d :
  s <> EmptyString -> split s d = split_go d s.
Proof. destruct s; [contradiction|reflexivity]. Qed.

Lemma split_go_no_delim d f : count_char d f = 0%nat -> split_go d f = [f].
Proof.
  induction f as [|c f IH]; [reflexivity|]. simpl.
  case_bool_decide; [discriminate|]. intros Hf. rewrite (IH Hf). reflexivity.
Qed.

Lemma split_single d f :
  f <> EmptyString -> count_char d f = 0%nat -> split f d = [f].
Proof.
  intros Hne Hf. rewrite split_nonempty by exact Hne.
  apply split_go_no_delim, Hf.
Qed.

Lemma split_app_delim d f rest :
  count_char d f = 0%nat ->
  split (f ++ String d rest) d = f :: split rest d.
Proof.
  induction f as [|c f IH]; intros Hf.
  - rewrite string_app_empty_l. simpl.
    rewrite bool_decide_eq_true_2 by reflexivity. reflexivity.
  - simpl in Hf. case_bool_decide as Hc; [discriminate|].
    rewrite string_app_cons. simpl. rewrite bool_decide_eq_false_2 by exact Hc.
    specialize (IH Hf). rewrite split_nonempty in IH.
    + rewrite IH. reflexivity.
    + destruct f; discriminate.
Qed.

Lemma split_go_delim d s : split_go d (String d s) = EmptyString :: split s d.
Proof.
  simpl. rewrite bool_decide_eq_true_2 by reflexivity.
  destruct s; reflexivity.
Qed.

Lemma split_go_other d c s :
  c <> d ->
  exists token parts,
    split_go d s = token :: parts /\
    split_go d (String c s) = String c token :: parts.
Proof.
  intros Hc. simpl. rewrite bool_decide_eq_false_2 by exact Hc.
  destruct (split_go d s) as [|token parts] eqn:Hgo.
  - exfalso. destruct s as [|c' s]; [discriminate|]. simpl in Hgo.
    destruct (bool_decide (c' = d)); [discriminate|].
    destruct (split_go d s); discriminate.
  - exists token, parts. split; reflexivity.
Qed.

Lemma ends_with_cons d c c' s :
  ends_with d (String c (String c' s)) = ends_with d (String c' s).
Proof. reflexivity. Qed.

Lemma length_split_go d s :
  length (split_go d s) =
  (count_char d s + if ends_with d s then 0 else 1)%nat.
Proof.
  induction s as [|c s IH]; [reflexivity|].
  destruct (decide (c = d)) as [->|Hc].
  - rewrite split_go_delim. cbn [count_char length].
    rewrite bool_decide_eq_true_2 by reflexivity.
    destruct s as [|c' s].
    + cbn. rewrite bool_decide_eq_true_2 by reflexivity. reflexivity.
    + rewrite ends_with_cons. rewrite split_nonempty by discriminate.
      rewrite IH. lia.
  - destruct (split_go_other d c s Hc) as (token & parts & Hgo & ->).
    rewrite Hgo in IH. cbn [count_char length] in *.
    rewrite bool_decide_eq_false_2 by exact Hc.
    destruct s as [|c' s].
    + cbn in *. rewrite bool_decide_eq_false_2 by exact Hc. lia.
    + rewrite ends_with_cons. lia.
Qed.

(** ** The characters of a printed integer *)

Lemma string_of_uint_digits d :
  string_forallb digit_or_minus (NilEmpty.string_of_uint d) = true.
Proof. induction d; simpl; try rewrite IHd; reflexivity. Qed.

Lemma string_of_uint_zero_digits d :
  string_forallb digit_or_minus (NilZero.string_of_uint d) = true.
Proof.
  destruct d; [reflexivity|..];
    match goal with
    | |- context [NilZero.string_of_uint ?u] => apply (string_of_uint_digits u)
    end.
Qed.

Lemma print_int_chars z : string_forallb digit_or_minus (print_int z) = true.
Proof.
  destruct z as [|p|p]; [reflexivity| |].
  - rewrite print_int_pos. apply string_of_uint_zero_digits.
  - rewrite print_int_neg. cbn [string_forallb].
    change (digit_or_minus "-") with true. apply string_of_uint_zero_digits.
Qed.

Lemma print_int_no_char d z :
  digit_or_minus d = false -> count_char d (print_int z) = 0%nat.
Proof. intros Hd. eapply count_char_forallb; [apply print_int_chars|exact Hd]. Qed.

Lemma print_int_first z :
  exists c s, print_int z = String c s /\ digit_or_minus c = true.
Proof.
  pose proof (print_int_chars z) as Hchars.
  destruct (print_int z) as [|c s] eqn:Hp.
  - exfalso. destruct z as [|p|p]; [discriminate| |discriminate].
    rewrite print_int_pos in Hp. destruct (Pos.to_uint p); discriminate.
  - exists c, s. split; [reflexivity|].
    simpl in Hchars. apply andb_true_iff in Hchars. apply Hchars.
Qed.

Lemma digit_or_minus_not_trim c :
  digit_or_minus c = true -> is_trim_char c = false.
Proof.
  unfold digit_or_minus, is_trim_char. intros H.
  assert (45 <= code c <= 57) as Hc.
  { apply orb_true_iff in H as [H|H].
    - apply is_digit_code in H. lia.
    - apply bool_decide_eq_true in H. subst c. vm_compute. split; discriminate. }
  repeat (apply orb_false_iff; split); apply Z.eqb_neq; lia.
Qed.

Lemma trim_first_kept c s : is_trim_char c = false -> trim (String c s) <> EmptyString.
Proof.
  intros Hc. unfold trim. cbn [find_first_not_of]. rewrite Hc.
  cbn [find_last_not_of]. rewrite Hc.
  destruct (find_last_not_of s); cbn; discriminate.
Qed.

(** ** Loading a leaderboard *)

Section LoadProperties.
Context {F : Float64} {Sorter : StdSort}.

Lemma parse_row_fields line :
  length (split line comma) <> 9%nat -> parse_row line = None.
Proof.
  unfold parse_row. intros Hlen. case_bool_decide; [reflexivity|].
  destruct (split line comma)
    as [|p0 [|p1 [|p2 [|p3 [|p4 [|p5 [|p6 [|p7 [|p8 [|p9 ps]]]]]]]]]];
    try reflexivity.
  exfalso. apply Hlen. reflexivity.
Qed.

Lemma parse_row_Some line e :
  parse_row line = Some e ->
  exists p0 p1 p2 p3 p4 p5 p6 p7 p8 code,
    split line comma = [p0; p1; p2; p3; p4; p5; p6; p7; p8] /\
    stoi p0 = Some (rank e) /\ name e = p1 /\
    stoi p2 = Some (score e) /\ stoi p3 = Some (games e) /\
    stoi p4 = Some (attempts e) /\ stod p5 = Some (averageTime e) /\
    stod p6 = Some (accuracy e) /\ stod p7 = Some (averageGuessTime e) /\
    stoi p8 = Some code /\ difficulty e = difficulty_of_code code.
Proof.
  unfold parse_row. case_bool_decide; [discriminate|].
  destruct (split line comma)
    as [|p0 [|p1 [|p2 [|p3 [|p4 [|p5 [|p6 [|p7 [|p8 [|p9 ps]]]]]]]]]];
    try discriminate.
  unfold parse_parts. intros Hparse.
  destruct (stoi p0) as [r|] eqn:H0; [|discriminate].
  destruct (stoi p2) as [sc|] eqn:H2; [|discriminate].
  destruct (stoi p3) as [gm|] eqn:H3; [|discriminate].
  destruct (stoi p4) as [att|] eqn:H4; [|discriminate].
  destruct (stod p5) as [t|] eqn:H5; [|discriminate].
  destruct (stod p6) as [acc|] eqn:H6; [|discriminate].
  destruct (stod p7) as [gt|] eqn:H7; [|discriminate].
  destruct (stoi p8) as [code|] eqn:H8; [|discriminate].
  cbn in Hparse. injection Hparse as <-.
  exists p0, p1, p2, p3, p4, p5, p6, p7, p8, code. cbn.
  repeat (split; [first [reflexivity|assumption]|]). reflexivity.
Qed.

Lemma parse_row_numeric line p0 p1 p2 p3 p4 p5 p6 p7 p8 :
  split line comma = [p0; p1; p2; p3; p4; p5; p6; p7; p8] ->
  stoi p0 = None \/ stoi p2 = None \/ stoi p3 = None \/ stoi p4 = None \/
  stod p5 = None \/ stod p6 = None \/ stod p7 = None \/ stoi p8 = None ->
  parse_row line = None.
Proof.
  intros Hsplit Hbad. destruct (parse_row line) as [e|] eqn:Hrow; [|reflexivity].
  apply parse_row_Some in Hrow
    as (q0 & q1 & q2 & q3 & q4 & q5 & q6 & q7 & q8 & code & Hq & H0 & _ & H2 &
        H3 & H4 & H5 & H6 & H7 & H8 & _).
  rewrite Hsplit in Hq. injection Hq as -> -> -> -> -> -> -> -> ->.
  exfalso. intuition congruence.
Qed.

Lemma omap_parse_dropped before line after :
  parse_row line = None ->
  omap parse_row (before ++ line :: after) =
  omap parse_row before ++ omap parse_row after.
Proof.
  intros Hrow. rewrite omap_app. simpl. rewrite Hrow. reflexivity.
Qed.

Lemma difficulty_of_code_default code :
  code <> 1 -> code <> 2 -> code <> 3 -> difficulty_of_code code = EASY.
Proof.
  intros H1 H2 H3. unfold difficulty_of_code.
  repeat case_bool_decide; congruence.
Qed.

Lemma forget_rank_assign_ranks l :
  forget_rank <$> assign_ranks l = forget_rank <$> l.
Proof.
  unfold assign_ranks. rewrite fmap_imap.
  rewrite <- (imap_const forget_rank l). apply imap_ext. reflexivity.
Qed.

Lemma trim_cons_blank c s :
  is_trim_char c = true -> trim (String c s) = trim s.
Proof.
  intros Hc. unfold trim. cbn [find_first_not_of find_last_not_of].
  rewrite Hc. destruct (find_first_not_of s) as [start|]; [|reflexivity].
  cbn [fmap option_fmap option_map].
  destruct (find_last_not_of s) as [e|]; reflexivity.
Qed.

Lemma trim_empty_no_char d s :
  is_trim_char d = false -> trim s = EmptyString -> count_char d s = 0%nat.
Proof.
  intros Hd. induction s as [|c s IH]; [reflexivity|].
  destruct (is_trim_char c) eqn:Hc.
  - rewrite (trim_cons_blank c s Hc). intros Hs. cbn [count_char].
    rewrite bool_decide_eq_false_2 by congruence. apply IH, Hs.
  - intros Hs. exfalso. exact (trim_first_kept c s Hc Hs).
Qed.

Lemma split_two_parts d s :
  (2 <= length (split s d))%nat -> count_char d s <> 0%nat.
Proof.
  destruct s as [|c s]; [simpl; lia|].
  rewrite split_nonempty by discriminate. rewrite length_split_go.
  destruct (ends_with d (String c s)); lia.
Qed.

Lemma nine_parts_not_blank line p0 p1 p2 p3 p4 p5 p6 p7 p8 :
  split line comma = [p0; p1; p2; p3; p4; p5; p6; p7; p8] ->
  trim line <> EmptyString.
Proof.
  intros Hsplit Hblank.
  apply (split_two_parts comma line); [rewrite Hsplit; simpl; lia|].
  apply trim_empty_no_char; [reflexivity|exact Hblank].
Qed.

Lemma parse_row_accepts line p0 p1 p2 p3 p4 p5 p6 p7 p8 r s gm att t acc gt code :
  split line comma = [p0; p1; p2; p3; p4; p5; p6; p7; p8] ->
  stoi p0 = Some r -> stoi p2 = Some s -> stoi p3 = Some gm ->
  stoi p4 = Some att -> stod p5 = Some t -> stod p6 = Some acc ->
  stod p7 = Some gt -> stoi p8 = Some code ->
  parse_row line = Some (mkEntry r p1 s gm att t acc gt (difficulty_of_code code)).
Proof.
  intros Hsplit H0 H2 H3 H4 H5 H6 H7 H8. unfold parse_row.
  rewrite bool_decide_eq_false_2
    by exact (nine_parts_not_blank _ _ _ _ _ _ _ _ _ _ Hsplit).
  rewrite Hsplit. unfold parse_parts.
  rewrite H0, H2, H3, H4, H5, H6, H7, H8. reflexivity.
Qed.

Lemma omap_parse_kept before line e after :
  parse_row line = Some e ->
  omap parse_row (before ++ line :: after) =
  omap parse_row before ++ e :: omap parse_row after.
Proof.
  intros Hrow. rewrite omap_app. simpl. rewrite Hrow. reflexivity.
Qed.

Lemma difficulty_of_code_cases code :
  difficulty_of_code code =
    if bool_decide (code = 2) then MEDIUM
    else if bool_decide (code = 3) then HARD else EASY.
Proof.
  unfold difficulty_of_code. repeat case_bool_decide; congruence || lia.
Qed.

Lemma prefix_cons a needle b s :
  String.prefix (String a needle) (String b s) =
  if ascii_dec a b then String.prefix needle s else false.
Proof. reflexivity. Qed.

Lemma prefix_spec needle s :
  String.prefix needle s = true <-> exists after, s = (needle ++ after)%string.
Proof.
  revert s. induction needle as [|a needle IH]; intros s; simpl.
  - split; [intros _; exists s; reflexivity|intros _; destruct s; reflexivity].
  - destruct s as [|b s].
    + split; [discriminate|]. intros [after Hs].
      rewrite string_app_cons in Hs. discriminate.
    + rewrite prefix_cons. destruct (ascii_dec a b) as [->|Hab].
      * split.
        -- intros Hp. apply IH in Hp as [after Hs]. exists after.
           rewrite string_app_cons. f_equal. exact Hs.
        -- intros [after Hs]. apply IH. exists after.
           rewrite string_app_cons in Hs. congruence.
      * split; [discriminate|]. intros [after Hs].
        rewrite string_app_cons in Hs. congruence.
Qed.

Lemma contains_spec needle s :
  contains needle s = true <->
  exists before after, s = (before ++ needle ++ after)%string.
Proof.
  induction s as [|c s IH].
  - cbn [contains]. rewrite orb_false_r, prefix_spec. split.
    + intros [after Hs]. exists EmptyString, after. exact Hs.
    + intros ([|b before] & after & Hs).
      * exists after. exact Hs.
      * rewrite string_app_cons in Hs. discriminate.
  - cbn [contains]. rewrite orb_true_iff, prefix_spec, IH. split.
    + intros [[after Hs]|(before & after & Hs)].
      * exists EmptyString, after. exact Hs.
      * exists (String c before), after. rewrite string_app_cons, Hs. reflexivity.
    + intros ([|b before] & after & Hs).
      * left. exists after. exact Hs.
      * right. rewrite string_app_cons in Hs. exists before, after. congruence.
Qed.

Context {SM : StdSortMoves Sorter}.


End LoadProperties.

(** ** Saving a leaderboard and loading it again *)

Section RoundTrip.
Context {F : Float64} {Sorter : StdSort}.

Lemma sep_app (x : string) : (sep ++ x)%string = String comma x.
Proof. reflexivity. Qed.

Lemma nl_app (x : string) : (nl ++ x)%string = String newline x.
Proof. reflexivity. Qed.

Lemma comma_not_printed : digit_or_minus comma = false.
Proof. reflexivity. Qed.

Lemma newline_not_printed : digit_or_minus newline = false.
Proof. reflexivity. Qed.

Lemma print_difficulty_code d :
  print_int (difficulty_code d) <> EmptyString /\
  ends_with comma (print_int (difficulty_code d)) = false /\
  stoi (print_int (difficulty_code d)) = Some (difficulty_code d) /\
  difficulty_of_code (difficulty_code d) = d.
Proof. destruct d; repeat split; discriminate. Qed.

Context {FT : Float64Text F}.

Lemma row_line_split e :
  count_char comma (name e) = 0%nat ->
  split (row_line e) comma =
  [print_int (rank e); name e; print_int (score e); print_int (games e);
   print_int (attempts e); fixed_str 2 (averageTime e);
   fixed_str 2 (accuracy e); fixed_str 2 (averageGuessTime e);
   print_int (difficulty_code (difficulty e))].
Proof.
  intros Hname. unfold row_line. rewrite !sep_app.
  rewrite split_app_delim by (apply print_int_no_char, comma_not_printed).
  rewrite split_app_delim by exact Hname.
  rewrite !split_app_delim
    by first [apply print_int_no_char, comma_not_printed | apply fixed_no_comma].
  rewrite split_single;
    [reflexivity | apply print_difficulty_code
    | apply print_int_no_char, comma_not_printed].
Qed.

Lemma count_comma_row_line e :
  count_char comma (row_line e) = (8 + count_char comma (name e))%nat.
Proof.
  unfold row_line. rewrite !sep_app.
  repeat (rewrite count_char_app; cbn [count_char];
          rewrite (bool_decide_eq_true_2 (comma = comma)) by reflexivity).
  rewrite !(print_int_no_char comma _ comma_not_printed), !fixed_no_comma. lia.
Qed.

Lemma count_newline_row_line e :
  count_char newline (name e) = 0%nat ->
  count_char newline (row_line e) = 0%nat.
Proof.
  intros Hname. unfold row_line. rewrite !sep_app.
  repeat (rewrite count_char_app; cbn [count_char];
          rewrite (bool_decide_eq_false_2 (comma = newline)) by discriminate).
  rewrite !(print_int_no_char newline _ newline_not_printed),
    !fixed_no_newline, Hname. reflexivity.
Qed.

Lemma string_app_assoc (a b c : string) :
  (a ++ (b ++ c))%string = ((a ++ b) ++ c)%string.
Proof.
  induction a as [|x a IH]; [reflexivity|].
  rewrite !string_app_cons, IH. reflexivity.
Qed.

Lemma row_line_ends e : ends_with comma (row_line e) = false.
Proof.
  unfold row_line. rewrite !string_app_assoc.
  rewrite ends_with_app by apply print_difficulty_code.
  apply print_difficulty_code.
Qed.

Lemma row_line_first e :
  exists c s, row_line e = String c s /\ is_trim_char c = false.
Proof.
  destruct (print_int_first (rank e)) as (c & s & Hp & Hc).
  unfold row_line. rewrite Hp, string_app_cons.
  eexists _, _. split; [reflexivity|]. apply digit_or_minus_not_trim, Hc.
Qed.

Lemma stod_fixed d : stod (fixed_str 2 d) = Some (reread d).
Proof.
  unfold reread. destruct (fixed_reads d) as [x ->]. reflexivity.
Qed.

(** A row whose name has no comma is read as the entry it was written
    from, with the three [double] fields as they are read again. *)
Lemma parse_row_written e :
  count_char comma (name e) = 0%nat -> entry_in_int e ->
  parse_row (row_line e) = Some (reparsed e).
Proof.
  intros Hname (Hr & Hs & Hg & Ha). unfold parse_row.
  destruct (row_line_first e) as (c & s & Hrow & Hc).
  rewrite bool_decide_eq_false_2
    by (rewrite Hrow; apply trim_first_kept, Hc).
  rewrite (row_line_split e Hname). unfold parse_parts.
  rewrite (stoi_print_int _ Hr), (stoi_print_int _ Hs),
    (stoi_print_int _ Hg), (stoi_print_int _ Ha).
  rewrite !stod_fixed.
  destruct (print_difficulty_code (difficulty e)) as (_ & _ & -> & Hd).
  cbn. rewrite Hd. reflexivity.
Qed.

(** A row whose name has a comma has more than nine fields. *)
Lemma parse_row_comma_name e :
  count_char comma (name e) <> 0%nat -> parse_row (row_line e) = None.
Proof.
  intros Hname. apply parse_row_fields.
  destruct (row_line_first e) as (c & s & Hrow & _).
  rewrite split_nonempty by (rewrite Hrow; discriminate).
  rewrite length_split_go, row_line_ends, count_comma_row_line. lia.
Qed.

Lemma row_parses_iff e :
  entry_in_int e -> row_parses e <-> count_char comma (name e) = 0%nat.
Proof.
  intros Hint. unfold row_parses. split.
  - intros [x Hx]. destruct (decide (count_char comma (name e) = 0%nat))
      as [Hc|Hc]; [exact Hc|].
    rewrite (parse_row_comma_name e Hc) in Hx. discriminate.
  - intros Hc. rewrite (parse_row_written e Hc Hint). eexists. reflexivity.
Qed.

Lemma split_rows_text l :
  Forall (fun e => count_char newline (name e) = 0%nat) l ->
  split (rows_text l) newline = row_line <$> l.
Proof.
  induction 1 as [|e l He Hl IH]; [reflexivity|].
  cbn [rows_text fold_right fmap list_fmap]. unfold entry_row.
  rewrite <- string_app_assoc, nl_app.
  rewrite split_app_delim by (apply count_newline_row_line, He).
  f_equal. exact IH.
Qed.

Lemma file_lines_leaderboard_text l :
  Forall (fun e => count_char newline (name e) = 0%nat) l ->
  file_lines (leaderboard_text l) = leaderboard_header :: (row_line <$> l).
Proof.
  intros Hl. unfold file_lines, leaderboard_text. rewrite nl_app.
  rewrite split_app_delim by reflexivity.
  f_equal. apply (split_rows_text l Hl).
Qed.

Lemma omap_parse_rows l :
  Forall entry_in_int l ->
  omap parse_row (row_line <$> l) =
  reparsed <$> filter row_parses l /\
  filter row_parses l =
  filter (fun e => count_char comma (name e) = 0%nat) l.
Proof.
  induction 1 as [|e l He Hl [IH1 IH2]]; [split; reflexivity|].
  cbn [fmap list_fmap omap list_omap]. rewrite !filter_cons.
  destruct (decide (count_char comma (name e) = 0%nat)) as [Hc|Hc].
  - rewrite (parse_row_written e Hc He).
    rewrite decide_True by (apply row_parses_iff; assumption).
    split; [|congruence]. cbn. f_equal. exact IH1.
  - rewrite (parse_row_comma_name e Hc).
    rewrite decide_False
      by (intros Hp; apply Hc; apply row_parses_iff; assumption).
    split; assumption.
Qed.

Lemma StronglySorted_filter {A} (R : A -> A -> Prop) (P : A -> Prop)
    `{!forall x, Decision (P x)} l :
  StronglySorted R l -> StronglySorted R (filter P l).
Proof.
  induction 1 as [|x l Hs IH Hx]; [constructor|].
  rewrite filter_cons. destruct (decide (P x)); [|exact IH].
  constructor; [exact IH|].
  rewrite Forall_forall in Hx |- *. intros y Hy.
  apply list_elem_of_filter in Hy as [_ Hy]. apply Hx, Hy.
Qed.

Lemma entry_tuple_assign_ranks l :
  entry_tuple <$> assign_ranks l = entry_tuple <$> l.
Proof.
  unfold assign_ranks. rewrite fmap_imap.
  rewrite <- (imap_const entry_tuple l). apply imap_ext. reflexivity.
Qed.

Lemma entry_tuple_reparsed (l : list LeaderboardEntry) :
  entry_tuple <$> (reparsed <$> l) = entry_tuple <$> l.
Proof. rewrite <- list_fmap_compose. apply list_fmap_ext. reflexivity. Qed.

Lemma loaded_rows_leaderboard_text l :
  Forall (fun e => count_char newline (name e) = 0%nat) l ->
  Forall entry_in_int l ->
  loaded_rows (leaderboard_text l) = reparsed <$> filter row_parses l.
Proof.
  intros Hnl Hint. unfold loaded_rows.
  rewrite (file_lines_leaderboard_text l Hnl). cbn [skip_header].
  change (contains "RANK" leaderboard_header) with true. cbn iota.
  apply omap_parse_rows, Hint.
Qed.

Lemma leaderboard_save_and_reload s1 f1 s2 f2 g :
  leaderboard (save_and_reload s1 f1 s2 f2 g) =
  assign_ranks
    (std_sort entry_before (loaded_rows (leaderboard_text (leaderboard g)))).
Proof. reflexivity. Qed.

Context {FO : Float64Order F} {SS : StdSortSpec Sorter}.

Lemma reread_rows_numbers l :
  Forall reads_as_number l ->
  Forall accuracy_is_number (reparsed <$> filter row_parses l).
Proof.
  intros Hnum. apply Forall_fmap. rewrite Forall_forall in Hnum |- *.
  intros e He. apply list_elem_of_filter in He as [_ He]. apply Hnum, He.
Qed.

(** The sort leaves the rows of a strictly ranked leaderboard in place. *)
Lemma std_sort_strictly_ranked l :
  strictly_ranked l ->
  std_sort entry_before (reparsed <$> filter row_parses l) =
  reparsed <$> filter row_parses l.
Proof.
  intros Hstrict.
  assert (StronglySorted (fun a b => entry_before a b = true)
            (reparsed <$> filter row_parses l)) as Hrows.
  { apply (StronglySorted_fmap reparsed
             (fun a b => entry_before (reparsed a) (reparsed b) = true)).
    - intros a b Hab. exact Hab.
    - apply StronglySorted_filter, Hstrict. }
  destruct (std_sort_spec _ entry_before _
              (strictly_ordered_strict_weak entry_before _
                 entry_before_asym Hrows)) as [Hperm Hord].
  apply (strictly_ordered_unique entry_before _ _ Hrows); [|exact Hperm|exact Hord].
  intros a _. destruct (entry_before a a) eqn:Haa; [|reflexivity].
  rewrite (entry_before_asym a a Haa) in Haa. discriminate.
Qed.


End RoundTrip.

(** ** The model of [Float64] writes texts that it reads *)

Lemma prefix_nan_other c s :
  tolower c <> "n"%char -> String.prefix "nan" (toLowerCase (String c s)) = false.
Proof.
  intros Hc. cbn [toLowerCase string_map String.prefix].
  destruct (ascii_dec "n" (tolower c)) as [Heq|]; [|reflexivity].
  exfalso. apply Hc. symmetry. exact Heq.
Qed.

Lemma tolower_digit_or_minus c :
  digit_or_minus c = true -> tolower c <> "n"%char.
Proof.
  intros Hc Hn. apply (f_equal code) in Hn. rewrite code_tolower in Hn.
  assert (45 <= code c <= 57) as Hrange.
  { unfold digit_or_minus in Hc. apply orb_true_iff in Hc as [H|H].
    - apply is_digit_code in H. lia.
    - apply bool_decide_eq_true in H. subst c. vm_compute. split; discriminate. }
  change (code "n") with 110 in Hn. destruct (is_upper c); lia.
Qed.

Lemma Whole_of_string_unsigned s :
  starts_with_digit s = true ->
  Whole.of_string s = Some (Whole.Num (digits_value s 0)).
Proof.
  destruct s as [|c s]; [discriminate|]. intros Hc. simpl in Hc.
  unfold Whole.of_string. cbn [skip_spaces]. rewrite (is_digit_not_space c Hc).
  rewrite prefix_nan_other
    by (apply tolower_digit_or_minus; unfold digit_or_minus; rewrite Hc;
        reflexivity).
  rewrite (bool_decide_eq_false_2 (c = "-"%char))
    by (apply is_digit_not_char; [exact Hc|vm_compute; reflexivity]).
  rewrite (bool_decide_eq_false_2 (c = "+"%char))
    by (apply is_digit_not_char; [exact Hc|vm_compute; reflexivity]).
  cbn [starts_with_digit]. rewrite Hc. reflexivity.
Qed.

Lemma Whole_of_string_negative s :
  starts_with_digit s = true ->
  Whole.of_string (String "-" s) = Some (Whole.Num (- digits_value s 0)).
Proof.
  intros Hs. unfold Whole.of_string. cbn [skip_spaces].
  change (is_space "-") with false. cbn iota.
  rewrite prefix_nan_other by (apply tolower_digit_or_minus; reflexivity).
  rewrite (bool_decide_eq_true_2 ("-"%char = "-"%char)) by reflexivity.
  rewrite Hs. reflexivity.
Qed.

Lemma Whole_reads_fixed p d :
  Whole.of_string (Whole.to_fixed p d) = Some d.
Proof.
  destruct d as [z|]; [|reflexivity]. unfold Whole.to_fixed.
  destruct (print_int_value z ("." ++ Whole.zeros p)%string eq_refl)
    as (negative & body & -> & -> & Hb & Hv).
  destruct (z <? 0) eqn:Hsign;
    [apply Z.ltb_lt in Hsign | apply Z.ltb_ge in Hsign].
  - rewrite (Whole_of_string_negative body Hb), Hv. do 2 f_equal. lia.
  - rewrite (Whole_of_string_unsigned body Hb), Hv. do 2 f_equal. lia.
Qed.

Lemma Whole_fixed_no_char c d :
  digit_or_minus c = false -> c <> "."%char -> c <> "0"%char ->
  c <> "n"%char -> c <> "a"%char ->
  count_char c (Whole.to_fixed 2 d) = 0%nat.
Proof.
  intros Hc Hdot Hzero Hn Ha. destruct d as [z|]; cbn [Whole.to_fixed].
  - rewrite count_char_app, (print_int_no_char c z Hc).
    change ("." ++ Whole.zeros 2)%string with ".00"%string.
    cbn [count_char]. rewrite !bool_decide_eq_false_2 by congruence.
    reflexivity.
  - cbn [count_char]. rewrite !bool_decide_eq_false_2 by congruence.
    reflexivity.
Qed.

Lemma Whole_float_text : Float64Text Whole.float.
Proof.
  split.
  - intros d. apply Whole_fixed_no_char; (reflexivity || discriminate).
  - intros d. apply Whole_fixed_no_char; (reflexivity || discriminate).
  - intros d. exists d. apply Whole_reads_fixed.
Qed.

Section Samples.
#[local] Existing Instance Whole.float.
#[local] Existing Instance Insertion.

Lemma sample_file_loaded :
  leaderboard
    (snd (loadLeaderboardFromFile (Some sample_file) 0 5000000 sample_game)) =
  [ @mkEntry Whole.float 1 "bob" 100 2 4
      (Whole.Num 12) (Whole.Num 75) (Whole.Num 3) MEDIUM;
    @mkEntry Whole.float 2 "ann" 100 1 4
      (Whole.Num 12) (Whole.Num 50) (Whole.Num 3) EASY ].
Proof. vm_compute. reflexivity. Qed.

Lemma leaderboard_sorted_and_ranked_witness :
  (Z.of_nat (length (leaderboard sample_loaded)) < INT_MAX /\
   guesses_in_size_t sample_loaded /\
   Forall accuracy_is_number (leaderboard sample_loaded) /\
   let lb :=
     leaderboard (updateLeaderboard (Whole.Num 3) sample_loaded) in
   ranks_contiguous lb /\
   length lb = S (length (leaderboard sample_loaded)) /\
   leaderboard_sorted lb /\ Forall accuracy_is_number lb) /\
  (Z.of_nat (length (loaded_rows sample_file)) <= INT_MAX /\
   Forall accuracy_is_number (loaded_rows sample_file) /\
   let loaded :=
     loadLeaderboardFromFile (Some sample_file) 0 5000000 sample_game in
   fst loaded = true /\
   ranks_contiguous (leaderboard (snd loaded)) /\
   length (leaderboard (snd loaded)) = length (loaded_rows sample_file) /\
   leaderboard_sorted (leaderboard (snd loaded)) /\
   Forall accuracy_is_number (leaderboard (snd loaded))).
Proof.
  assert (Z.of_nat (length (leaderboard sample_loaded)) < INT_MAX) as Hsize
    by (vm_compute; reflexivity).
  assert (guesses_in_size_t sample_loaded) as Hcounters
    by (vm_compute; repeat split; discriminate).
  assert (Forall accuracy_is_number (leaderboard sample_loaded)) as Hlb
    by (vm_compute; repeat constructor).
  assert (Z.of_nat (length (loaded_rows sample_file)) <= INT_MAX) as Hlen
    by (vm_compute; discriminate).
  assert (Forall accuracy_is_number (loaded_rows sample_file)) as Hrows
    by (vm_compute; repeat constructor).
  split.
  - destruct (proj1 (leaderboard_sorted_and_ranked
                       (FO := Whole_float_order) (SS := Insertion_spec)
                       (FN := Whole_float_numbers) (SM := Insertion_moves)
                       sample_loaded) (Whole.Num 3) Hsize)
      as (Hranks & Hlength & Hsorted).
    split; [exact Hsize|]. split; [exact Hcounters|]. split; [exact Hlb|].
    split; [exact Hranks|]. split; [exact Hlength|].
    exact (Hsorted Hcounters Hlb).
  - destruct (proj2 (leaderboard_sorted_and_ranked
                       (FO := Whole_float_order) (SS := Insertion_spec)
                       (FN := Whole_float_numbers) (SM := Insertion_moves)
                       sample_game) sample_file 0 5000000 Hlen)
      as (Hopened & Hranks & Hlength & Hsorted).
    split; [exact Hlen|]. split; [exact Hrows|]. split; [exact Hopened|].
    split; [exact Hranks|]. split; [exact Hlength|].
    exact (Hsorted Hrows).
Defined.

Lemma nan_file_loaded :
  leaderboard
    (snd (loadLeaderboardFromFile (Some nan_file) 0 5000000 sample_game)) =
  [ @mkEntry Whole.float 1 "ann" 100 1 4
      (Whole.Num 12) (Whole.Num 75) (Whole.Num 3) EASY;
    @mkEntry Whole.float 2 "bob" 100 1 4
      (Whole.Num 12) (Whole.Num 50) (Whole.Num 3) EASY;
    @mkEntry Whole.float 3 "cat" 100 1 4
      (Whole.Num 12) Whole.NaN (Whole.Num 3) EASY;
    @mkEntry Whole.float 4 "dan" 100 1 4
      (Whole.Num 12) (Whole.Num 60) (Whole.Num 3) EASY ].
Proof. vm_compute. reflexivity. Qed.

(** The file with a [nan] accuracy is loaded, and the load succeeds.  No
    comparison with the [nan] row answers true, so the sort leaves the four
    rows, all of score 100, in the order of the file: accuracy 50 is ranked
    2 and accuracy 60 is ranked 4. *)
Lemma nan_accuracy_breaks_order :
  let loaded :=
    loadLeaderboardFromFile (Some nan_file) 0 5000000 sample_game in
  fst loaded = true /\
  (fun e => (rank e, score e, accuracy e)) <$> leaderboard (snd loaded) =
    [ (1, 100, Whole.Num 75); (2, 100, Whole.Num 50); (3, 100, Whole.NaN);
      (4, 100, Whole.Num 60) ] /\
  ~ leaderboard_sorted (leaderboard (snd loaded)).
Proof.
  cbv zeta. split; [reflexivity|]. rewrite nan_file_loaded.
  split; [reflexivity|].
  unfold leaderboard_sorted. intros Hsorted.
  apply StronglySorted_inv in Hsorted as [Hsorted _].
  apply StronglySorted_inv in Hsorted as [_ Hbob].
  apply Forall_inv_tail, Forall_inv in Hbob.
  destruct Hbob as [Hscore|[_ Haccuracy]].
  - cbn in Hscore. lia.
  - vm_compute in Haccuracy. discriminate.
Qed.



Example messy_file_loaded :
  leaderboard
    (snd (loadLeaderboardFromFile (Some messy_file) 0 5000000 crafted_game)) =
  [ @mkEntry Whole.float 1 "bob" 120 2 4
      (Whole.Num 12) (Whole.Num 75) (Whole.Num 3) EASY;
    @mkEntry Whole.float 2 "ann" 100 1 4
      (Whole.Num 12) (Whole.Num 50) (Whole.Num 3) EASY ].
Proof. vm_compute. reflexivity. Qed.


Lemma showHint_reveals_monotonically_witness :
  (currentWord sample_game = EmptyString \/ all_revealed sample_game) /\
  snd (showHint 3 sample_game) = sample_game /\
  signals_no_hint (fst (showHint 3 sample_game)) /\
  revealedPositions sample_round ⊆
    revealedPositions (snd (showHint 1 sample_round)).
Proof.
  destruct (showHint_reveals_monotonically sample_game)
    as (_ & _ & Hnone).
  destruct (showHint_reveals_monotonically sample_round)
    as (_ & Hgrow & _).
  assert (currentWord sample_game = EmptyString \/ all_revealed sample_game)
    as Hcase by (left; reflexivity).
  split; [exact Hcase|].
  split; [apply (Hnone 3 Hcase)|].
  split; [apply (Hnone 3 Hcase)|apply (Hgrow 1)].
Defined.

(** The three hint levels on the sample round, and a hint without a
    target. *)
Example hints_on_sample_round :
  fst (showHint 1 sample_round) = ["Starts with: p"%string] /\
  fst (showHint 2 sample_round) = ["Starts with p ... ends with e"%string] /\
  fst (showHint 3 sample_round) = ["Letter at position 1 is 'p'"%string] /\
  showHint 3 sample_game = ([no_word_selected], sample_game) /\
  elements (revealedPositions
    (snd (showHint 3 (snd (showHint 2 (snd (showHint 1 sample_round))))))) =
  [5; 1; 0].
Proof. repeat split; vm_compute; reflexivity. Qed.

End Samples.

(** * Further properties *)

(** ** Trimming *)

Lemma substring_0_0 s : substring 0 0 s = EmptyString.
Proof. destruct s; reflexivity. Qed.

Lemma rstrip_cons_kept c s :
  is_trim_char c = false -> rstrip (String c s) = String c (rstrip s).
Proof. intros Hc. simpl. rewrite Hc. destruct (rstrip s); reflexivity. Qed.

(** The prefix up to the last character that is not white space. *)
Lemma substring_find_last s :
  substring 0 (match find_last_not_of s with Some i => S i | None => 0 end) s =
  rstrip s.
Proof.
  induction s as [|c s IH]; [reflexivity|]. simpl.
  destruct (find_last_not_of s) as [i|] eqn:Hlast.
  - simpl. rewrite IH. destruct s as [|c' s]; [discriminate|].
    destruct (rstrip (String c' s)) eqn:Hr; [|reflexivity].
    simpl in IH. discriminate.
  - rewrite substring_0_0 in IH. rewrite <- IH.
    destruct (is_trim_char c); simpl; [reflexivity|].
    rewrite substring_0_0. reflexivity.
Qed.

Lemma find_first_last s i :
  find_first_not_of s = Some i -> is_Some (find_last_not_of s).
Proof.
  revert i. induction s as [|c s IH]; [discriminate|]. simpl. intros i Hi.
  destruct (find_last_not_of s); [eexists; reflexivity|].
  destruct (is_trim_char c) eqn:Hc; [|eexists; reflexivity].
  destruct (find_first_not_of s) as [j|]; [|discriminate].
  destruct (IH j eq_refl) as [x Hx]. discriminate.
Qed.

Lemma find_first_le_last s i j :
  find_first_not_of s = Some i -> find_last_not_of s = Some j -> (i <= j)%nat.
Proof.
  revert i j. induction s as [|c s IH]; [discriminate|]. simpl. intros i j Hi Hj.
  destruct (is_trim_char c) eqn:Hc.
  - destruct (find_first_not_of s) as [i'|]; [|discriminate].
    injection Hi as <-.
    destruct (find_last_not_of s) as [j'|]; [|discriminate].
    injection Hj as <-. specialize (IH i' j' eq_refl eq_refl). lia.
  - injection Hi as <-. lia.
Qed.

(** [trim] removes the white space on the left and then on the right. *)
Lemma trim_strips s : trim s = rstrip (lstrip s).
Proof.
  induction s as [|c s IH]; [reflexivity|].
  unfold trim in *. simpl.
  destruct (is_trim_char c) eqn:Hc.
  - destruct (find_first_not_of s) as [i|] eqn:Hfirst; simpl.
    + destruct (find_first_last s i Hfirst) as [j Hlast].
      rewrite Hlast in *. simpl. exact IH.
    + exact IH.
  - rewrite (rstrip_cons_kept c s Hc).
    rewrite <- (substring_find_last s).
    destruct (find_last_not_of s) as [j|]; simpl.
    + replace (j + 1)%nat with (S j) by lia. reflexivity.
    + rewrite substring_0_0. reflexivity.
Qed.

Lemma lstrip_split s :
  exists blanks, s = (blanks ++ lstrip s)%string /\
                 string_forallb is_trim_char blanks = true.
Proof.
  induction s as [|c s (blanks & Hs & Hb)].
  - exists EmptyString. split; reflexivity.
  - simpl. destruct (is_trim_char c) eqn:Hc.
    + exists (String c blanks). rewrite string_app_cons, <- Hs.
      split; [reflexivity|]. simpl. rewrite Hc. exact Hb.
    + exists EmptyString. split; reflexivity.
Qed.

Lemma rstrip_split s :
  exists blanks, s = (rstrip s ++ blanks)%string /\
                 string_forallb is_trim_char blanks = true.
Proof.
  induction s as [|c s (blanks & Hs & Hb)].
  - exists EmptyString. split; reflexivity.
  - simpl. destruct (rstrip s) as [|c' r] eqn:Hr.
    + rewrite string_app_empty_l in Hs. subst blanks.
      destruct (is_trim_char c) eqn:Hc.
      * exists (String c s). split; [reflexivity|]. simpl. rewrite Hc. exact Hb.
      * exists s. split; [reflexivity|exact Hb].
    + exists blanks. rewrite string_app_cons, <- Hs. split; [reflexivity|exact Hb].
Qed.

Lemma rstrip_idempotent s : rstrip (rstrip s) = rstrip s.
Proof.
  induction s as [|c s IH]; [reflexivity|]. simpl.
  destruct (rstrip s) as [|c' r] eqn:Hr.
  - destruct (is_trim_char c) eqn:Hc; [reflexivity|]. simpl. rewrite Hc. reflexivity.
  - simpl in IH |- *. destruct (rstrip r) as [|c'' r'] eqn:Hrr.
    + destruct (is_trim_char c'); [discriminate|]. rewrite IH. reflexivity.
    + rewrite IH. reflexivity.
Qed.

Lemma lstrip_first s c rest :
  lstrip s = String c rest -> is_trim_char c = false.
Proof.
  induction s as [|x s IH]; [discriminate|]. simpl.
  destruct (is_trim_char x) eqn:Hx; [exact IH|]. intros [= <- _]. exact Hx.
Qed.

Lemma rstrip_first s c rest :
  rstrip s = String c rest -> exists rest', s = String c rest'.
Proof.
  destruct s as [|x s]; [discriminate|]. simpl.
  destruct (rstrip s); [destruct (is_trim_char x)|]; intros [= <- _];
    eexists; reflexivity.
Qed.

Lemma rstrip_last s init c :
  rstrip s = (init ++ String c EmptyString)%string -> is_trim_char c = false.
Proof.
  revert init. induction s as [|x s IH]; intros init.
  - simpl. destruct init; discriminate.
  - simpl. destruct (rstrip s) as [|c' r] eqn:Hr.
    + destruct (is_trim_char x) eqn:Hx; [destruct init; discriminate|].
      destruct init as [|y init].
      * rewrite string_app_empty_l. intros [= <-]. exact Hx.
      * rewrite string_app_cons. intros [= _ Hinit].
        destruct init; discriminate.
    + destruct init as [|y init].
      * rewrite string_app_empty_l. intros [=].
      * rewrite string_app_cons. intros [= _ Hinit]. apply (IH init Hinit).
Qed.

Lemma lstrip_kept s c rest :
  s = String c rest -> is_trim_char c = false -> lstrip s = s.
Proof. intros -> Hc. simpl. rewrite Hc. reflexivity. Qed.

Lemma trim_idempotent s : trim (trim s) = trim s.
Proof.
  rewrite !trim_strips.
  destruct (rstrip (lstrip s)) as [|c rest] eqn:Hr; [reflexivity|].
  destruct (rstrip_first _ _ _ Hr) as [rest' Hl].
  pose proof (lstrip_first _ _ _ Hl) as Hc.
  rewrite (lstrip_kept (String c rest) c rest eq_refl Hc).
  rewrite <- Hr. apply rstrip_idempotent.
Qed.

(** X1: [trim] cuts white space off both ends and nothing else: its argument
    is blanks, then the result, then blanks; the result neither starts nor
    ends with a blank; and trimming twice is trimming once. *)
Theorem trim_cuts_both_ends (s : string) :
  (exists before after,
     s = (before ++ trim s ++ after)%string /\
     string_forallb is_trim_char before = true /\
     string_forallb is_trim_char after = true) /\
  (forall c rest, trim s = String c rest -> is_trim_char c = false) /\
  (forall init c,
     trim s = (init ++ String c EmptyString)%string -> is_trim_char c = false) /\
  trim (trim s) = trim s.
Proof.
  split; [|split; [|split]].
  - rewrite trim_strips.
    destruct (lstrip_split s) as (before & Hs & Hb).
    destruct (rstrip_split (lstrip s)) as (after & Hl & Ha).
    exists before, after. split; [|split; assumption].
    rewrite <- Hl. exact Hs.
  - rewrite trim_strips. intros c rest Hr.
    destruct (rstrip_first _ _ _ Hr) as [rest' Hl].
    apply (lstrip_first _ _ _ Hl).
  - rewrite trim_strips. intros init c. apply rstrip_last.
  - apply trim_idempotent.
Qed.

Lemma rstrip_no_blank s :
  string_forallb (fun c => negb (is_trim_char c)) s = true -> rstrip s = s.
Proof.
  induction s as [|c s IH]; [reflexivity|]. simpl. intros H.
  apply andb_true_iff in H as [Hc Hs]. apply negb_true_iff in Hc.
  rewrite (IH Hs). destruct s; [rewrite Hc|]; reflexivity.
Qed.

Lemma trim_no_blank s :
  string_forallb (fun c => negb (is_trim_char c)) s = true -> trim s = s.
Proof.
  intros H. rewrite trim_strips.
  replace (lstrip s) with s; [apply rstrip_no_blank, H|].
  destruct s as [|c s]; [reflexivity|]. simpl in *.
  apply andb_true_iff in H as [Hc _]. apply negb_true_iff in Hc.
  rewrite Hc. reflexivity.
Qed.

Lemma is_alpha_not_blank c : is_alpha c = true -> negb (is_trim_char c) = true.
Proof.
  intros H. apply is_alpha_letter in H. unfold letter in H.
  change (code "A") with 65 in H; change (code "Z") with 90 in H.
  change (code "a") with 97 in H; change (code "z") with 122 in H.
  apply negb_true_iff. unfold is_trim_char.
  repeat (apply orb_false_iff; split); apply Z.eqb_neq; lia.
Qed.

Lemma string_forallb_impl (p q : ascii -> bool) s :
  (forall c, p c = true -> q c = true) ->
  string_forallb p s = true -> string_forallb q s = true.
Proof.
  intros Hpq. induction s as [|c s IH]; [reflexivity|]. simpl. intros H.
  apply andb_true_iff in H as [Hc Hs]. apply andb_true_iff. auto.
Qed.

Lemma isValidWord_letters w :
  isValidWord w = true -> string_forallb is_alpha w = true.
Proof.
  unfold isValidWord. case_bool_decide as Hempty; [discriminate|].
  destruct (_ || _); [discriminate|]. destruct w; [discriminate|].
  intros Hletters. exact Hletters.
Qed.

Lemma isValidWord_trim w : isValidWord w = true -> trim w = w.
Proof.
  intros H. apply trim_no_blank.
  eapply string_forallb_impl; [apply is_alpha_not_blank|].
  apply isValidWord_letters, H.
Qed.

Section BankAcceptance.
Context {F : Float64} {Sorter : StdSort}.

Lemma elem_of_lowered_bank g x :
  bank_well_formed g ->
  x ∈ uniqueWords g <-> exists v, v ∈ words g /\ toLowerCase v = x.
Proof.
  intros (_ & _ & ->). rewrite elem_of_list_to_set, list_elem_of_fmap.
  split; intros (v & H1 & H2); exists v; split; congruence || assumption.
Qed.

(** X2: [addWord] accepts every word that is valid once trimmed and equals
    no word of the bank up to letter case, and appends it trimmed; a word
    that is valid as given is appended as it is. *)
Theorem addWord_accepts_new_valid_word (word : string) (g : Game) :
  bank_well_formed g ->
  isValidWord (trim word) = true ->
  (forall v, v ∈ words g -> ~ case_insensitively_equal v (trim word)) ->
  fst (addWord word g) = true /\
  words (snd (addWord word g)) = words g ++ [trim word] /\
  (isValidWord word = true -> words (snd (addWord word g)) = words g ++ [word]).
Proof.
  intros Hbank Hvalid Hnew.
  assert (toLowerCase (trim word) ∉ uniqueWords g) as Hfresh.
  { intros Hin. apply (elem_of_lowered_bank g _ Hbank) in Hin as (v & Hv & Heq).
    apply (Hnew v Hv). apply toLowerCase_eq_iff, Heq. }
  unfold addWord. rewrite Hvalid. cbn [negb].
  rewrite bool_decide_eq_false_2 by exact Hfresh.
  split; [reflexivity|]. split; [reflexivity|].
  intros Hword. cbn. rewrite (isValidWord_trim word Hword). reflexivity.
Qed.

End BankAcceptance.

(** ** Lower case *)

Lemma tolower_not_upper c : is_upper (tolower c) = false.
Proof.
  unfold is_upper at 1. rewrite code_tolower.
  destruct (is_upper c) eqn:Hu.
  - unfold is_upper in Hu. apply andb_true_iff in Hu as [H1 H2].
    apply Z.leb_le in H1. apply Z.leb_le in H2.
    apply andb_false_iff. right. apply Z.leb_gt. lia.
  - exact Hu.
Qed.

Lemma tolower_idempotent c : tolower (tolower c) = tolower c.
Proof. unfold tolower at 1. rewrite tolower_not_upper. reflexivity. Qed.

(** X3: [toLowerCase] keeps the length, leaves no capital letter, changes
    nothing in a text without capital letters, and gives a text that
    [caseInsensitiveCompare] takes for the original. *)
Theorem toLowerCase_normalises (s : string) :
  String.length (toLowerCase s) = String.length s /\
  string_forallb (fun c => negb (is_upper c)) (toLowerCase s) = true /\
  toLowerCase (toLowerCase s) = toLowerCase s /\
  (string_forallb (fun c => negb (is_upper c)) s = true -> toLowerCase s = s) /\
  caseInsensitiveCompare s (toLowerCase s) = true.
Proof.
  assert (toLowerCase (toLowerCase s) = toLowerCase s) as Hidem.
  { unfold toLowerCase. induction s as [|c s IH]; [reflexivity|].
    simpl. rewrite tolower_idempotent, IH. reflexivity. }
  split; [|split; [|split; [exact Hidem|split]]].
  - clear Hidem. unfold toLowerCase. induction s as [|c s IH]; [reflexivity|].
    simpl. rewrite IH. reflexivity.
  - clear Hidem. unfold toLowerCase. induction s as [|c s IH]; [reflexivity|].
    simpl. rewrite tolower_not_upper, IH. reflexivity.
  - clear Hidem. unfold toLowerCase. induction s as [|c s IH]; [reflexivity|].
    simpl. intros H. apply andb_true_iff in H as [Hc Hs].
    apply negb_true_iff in Hc. rewrite (IH Hs). unfold tolower.
    rewrite Hc. reflexivity.
  - unfold caseInsensitiveCompare. apply bool_decide_eq_true.
    symmetry. exact Hidem.
Qed.

(** ** Splitting and joining *)

Lemma join_cons_cons d p q rest :
  join d (p :: q :: rest) = (p ++ String d (join d (q :: rest)))%string.
Proof. reflexivity. Qed.

Lemma join_cons_char d c token parts :
  join d (String c token :: parts) = String c (join d (token :: parts)).
Proof. destruct parts; [reflexivity|]. rewrite !join_cons_cons. reflexivity. Qed.

Lemma split_go_not_nil d s : split_go d s <> [].
Proof.
  destruct s as [|c s]; [discriminate|].
  destruct (decide (c = d)) as [->|Hc].
  - rewrite split_go_delim. discriminate.
  - destruct (split_go_other d c s Hc) as (token & parts & _ & ->). discriminate.
Qed.

Lemma split_go_tokens d s :
  Forall (fun token => count_char d token = 0%nat) (split_go d s).
Proof.
  induction s as [|c s IH]; [repeat constructor|].
  destruct (decide (c = d)) as [->|Hc].
  - rewrite split_go_delim. constructor; [reflexivity|].
    destruct s; [constructor|exact IH].
  - destruct (split_go_other d c s Hc) as (token & parts & Hgo & ->).
    rewrite Hgo in IH. apply Forall_cons in IH as [Ht Hp].
    constructor; [|exact Hp]. simpl.
    rewrite bool_decide_eq_false_2 by exact Hc. exact Ht.
Qed.

Lemma join_split_go d s :
  (join d (split_go d s) ++
   (if ends_with d s then String d EmptyString else EmptyString))%string = s.
Proof.
  induction s as [|c s IH]; [reflexivity|].
  destruct (decide (c = d)) as [->|Hc].
  - rewrite split_go_delim. destruct s as [|c' s].
    + cbn. rewrite bool_decide_eq_true_2 by reflexivity. reflexivity.
    + rewrite ends_with_cons. rewrite split_nonempty by discriminate.
      destruct (split_go d (String c' s)) as [|token parts] eqn:Hgo.
      * exfalso. exact (split_go_not_nil d _ Hgo).
      * rewrite join_cons_cons, string_app_empty_l, string_app_cons.
        rewrite IH. reflexivity.
  - destruct (split_go_other d c s Hc) as (token & parts & Hgo & ->).
    rewrite Hgo in IH. rewrite join_cons_char, string_app_cons.
    destruct s as [|c' s].
    + cbn in Hgo. injection Hgo as <- <-. cbn.
      rewrite bool_decide_eq_false_2 by exact Hc. reflexivity.
    + rewrite ends_with_cons, IH. reflexivity.
Qed.

(** X4: the tokens of [split] do not contain the delimiter; written one
    after the other with the delimiter between them they give the text
    back, up to one delimiter at the very end, which [split] drops; and
    tokens without the delimiter, the last of them not empty, are found
    again when their joined text is split. *)
Theorem split_and_join (d : ascii) :
  (forall s, Forall (fun token => count_char d token = 0%nat) (split s d)) /\
  (forall s,
     s = (join d (split s d) ++
          (if ends_with d s then String d EmptyString else EmptyString))%string) /\
  (forall parts,
     Forall (fun token => count_char d token = 0%nat) parts ->
     last parts <> Some EmptyString ->
     split (join d parts) d = parts).
Proof.
  split; [|split].
  - intros [|c s]; [constructor|apply split_go_tokens].
  - intros [|c s]; [reflexivity|]. symmetry. apply join_split_go.
  - induction parts as [|p [|q rest] IH]; intros Hparts Hlast.
    + reflexivity.
    + apply Forall_cons in Hparts as [Hp _]. apply split_single; [|exact Hp].
      intros ->. apply Hlast. reflexivity.
    + apply Forall_cons in Hparts as [Hp Hrest].
      rewrite join_cons_cons, split_app_delim by exact Hp.
      f_equal. apply IH; [exact Hrest|exact Hlast].
Qed.

(** ** What every reachable session satisfies *)

Section SessionInvariants.
Context {F : Float64} {Sorter : StdSort}.

Lemma addWord_bank word g :
  bank_well_formed g ->
  bank_well_formed (snd (addWord word g)) /\
  (words (snd (addWord word g)) = words g \/
   words (snd (addWord word g)) = words g ++ [trim word]).
Proof.
  intros (Hvalid & Hnodup & Hset). unfold addWord.
  destruct (isValidWord (trim word)) eqn:Hword; cbn [negb];
    [|split; [repeat split; assumption|left; reflexivity]].
  case_bool_decide as Hdup;
    [split; [repeat split; assumption|left; reflexivity]|].
  split; [|right; reflexivity]. unfold bank_well_formed.
  cbn [snd words uniqueWords updateMemoryUsage set_bank set_metrics].
  split; [|split].
  - apply Forall_app. split; [exact Hvalid|]. repeat constructor. exact Hword.
  - rewrite fmap_app. apply NoDup_app. split; [exact Hnodup|]. split.
    + intros x Hx Hx'. apply list_elem_of_singleton in Hx'. subst x.
      apply Hdup. rewrite Hset. apply elem_of_list_to_set, Hx.
    + apply NoDup_singleton.
  - rewrite fmap_app, list_to_set_app_L, Hset.
    cbn [fmap list_fmap list_to_set foldr].
    rewrite union_empty_r_L. reflexivity.
Qed.

Lemma add_lines_bank lines g :
  bank_well_formed g ->
  bank_well_formed (add_lines lines g) /\
  exists added, words (add_lines lines g) = words g ++ added.
Proof.
  revert g. induction lines as [|line lines IH]; intros g Hbank.
  - split; [exact Hbank|]. exists []. rewrite app_nil_r. reflexivity.
  - cbn [add_lines fold_left].
    set (g1 := if bool_decide (trim line = EmptyString) then g
               else snd (addWord (trim line) g)).
    assert (bank_well_formed g1 /\ exists a, words g1 = words g ++ a) as [H1 [a Ha]].
    { unfold g1. case_bool_decide.
      - split; [exact Hbank|]. exists []. rewrite app_nil_r. reflexivity.
      - destruct (addWord_bank (trim line) g Hbank) as [Hb [Hw|Hw]].
        + split; [exact Hb|]. exists []. rewrite app_nil_r. exact Hw.
        + split; [exact Hb|]. eexists. exact Hw. }
    destruct (IH g1 H1) as [H2 [b Hb]]. split; [exact H2|].
    exists (a ++ b). unfold add_lines in Hb. rewrite Hb, Ha, app_assoc. reflexivity.
Qed.

Lemma loadWordsFromFile_Some contents start finish g :
  snd (loadWordsFromFile (Some contents) start finish g) =
  updateMemoryUsage
    (record_file_operation start finish (add_lines (file_lines contents) g)).
Proof. reflexivity. Qed.

Lemma same_round_state_refl g : same_round_state g g.
Proof. repeat split. Qed.

(** The operations that leave the bank, the target, the revealed positions
    and the scoring table alone. *)
Lemma perform_same_round_state op g :
  match op with
  | OpAddWord _ | OpLoadWords _ _ _ | OpSelectRandomWord _ | OpShowHint _
  | OpCustomizeScoring _ _ => True
  | _ => same_round_state g (perform op g)
  end.
Proof.
  destruct op; cbn [perform]; try exact I; try (repeat split; fail).
  - unfold scrambleWord.
    destruct (if 1 <? str_size word then _ else _) as [scrambled e].
    repeat split.
  - unfold updateScore. destruct (_ || _); repeat split.
  - destruct can_open; repeat split.
  - destruct can_open; repeat split.
  - destruct file; repeat split.
Qed.

Lemma same_round_state_inv g g' :
  same_round_state g g' ->
  bank_well_formed g -> target_in_bank g -> revealed_in_range g ->
  custom_positive g ->
  bank_well_formed g' /\ target_in_bank g' /\ revealed_in_range g' /\
  custom_positive g'.
Proof.
  intros (Hw & Hu & Hc & Hr & Hs) Hbank Htarget Hrev Hcustom.
  unfold bank_well_formed, target_in_bank, revealed_in_range, custom_positive.
  rewrite Hw, Hu, Hc, Hr, Hs.
  split; [exact Hbank|]. split; [exact Htarget|]. split; [exact Hrev|].
  exact Hcustom.
Qed.

Lemma target_in_grown_bank g g' added :
  words g' = words g ++ added -> currentWord g' = currentWord g ->
  target_in_bank g -> target_in_bank g'.
Proof.
  unfold target_in_bank. intros Hw Hc [Hempty|Hin]; rewrite Hc, Hw.
  - left. exact Hempty.
  - right. apply elem_of_app. left. exact Hin.
Qed.

Lemma uniform_range a b e : a <= b -> a <= fst (uniform a b e) <= b.
Proof.
  intros Hab. unfold uniform. cbn [fst].
  pose proof (Z.mod_pos_bound (outputs e (cursor e)) (b - a + 1) ltac:(lia)).
  lia.
Qed.

Lemma selectRandomWord_target now g :
  words g <> [] ->
  fst (selectRandomWord now g) ∈ words g /\
  currentWord (snd (selectRandomWord now g)) = fst (selectRandomWord now g) /\
  revealedPositions (snd (selectRandomWord now g)) = ∅ /\
  words (snd (selectRandomWord now g)) = words g /\
  uniqueWords (snd (selectRandomWord now g)) = uniqueWords g /\
  customScores (snd (selectRandomWord now g)) = customScores g.
Proof.
  intros Hne. unfold selectRandomWord.
  destruct (words g) as [|w ws] eqn:Hwords; [contradiction|].
  pose proof (uniform_range 0 (Z.of_nat (length (w :: ws)) - 1) (rng g)
                ltac:(simpl; lia)) as Hrange.
  destruct (uniform 0 (Z.of_nat (length (w :: ws)) - 1) (rng g)) as [i e].
  cbn [fst snd] in *.
  destruct ((w :: ws) !! Z.to_nat i) as [x|] eqn:Hlookup.
  - cbn. repeat split.
    apply list_elem_of_lookup. exists (Z.to_nat i). exact Hlookup.
  - apply lookup_ge_None in Hlookup. lia.
Qed.

Lemma next_unrevealed_from_spec revealed steps i :
  let r := next_unrevealed_from revealed steps i in
  i <= r <= i + Z.of_nat steps /\
  (forall j, i <= j < r -> j ∈ revealed) /\
  (r < i + Z.of_nat steps -> r ∉ revealed).
Proof.
  revert i. induction steps as [|k IH]; intros i; cbn zeta; simpl.
  - split; [lia|]. split; [intros j Hj; lia|lia].
  - case_bool_decide as Hi.
    + specialize (IH (i + 1)). cbn zeta in IH. destruct IH as (Hr & Hlow & Hnot).
      split; [lia|]. split.
      * intros j Hj. destruct (decide (j = i)) as [->|Hne]; [exact Hi|].
        apply Hlow. lia.
      * intros Hlt. apply Hnot. lia.
    + split; [lia|]. split; [intros j Hj; lia|intros _; exact Hi].
Qed.

Lemma showHint_in_range level g :
  revealed_in_range g -> revealed_in_range (snd (showHint level g)).
Proof.
  unfold revealed_in_range, showHint. intros Hrev.
  pose proof (str_size_nonneg (currentWord g)) as Hsize.
  case_bool_decide as Hw; [exact Hrev|].
  assert (0 < str_size (currentWord g)) as Hpos.
  { unfold str_size. destruct (currentWord g); [contradiction|]. simpl. lia. }
  destruct (str_size (currentWord g) <=? _); [exact Hrev|].
  case_bool_decide as H1; [|case_bool_decide as H2].
  - cbn. intros i Hi. apply elem_of_union in Hi as [Hi|Hi]; [auto|].
    apply elem_of_singleton in Hi. lia.
  - cbn. intros i Hi. repeat (apply elem_of_union in Hi as [Hi|Hi]); [auto| |];
      apply elem_of_singleton in Hi; lia.
  - destruct (str_size (currentWord g) <=? nextUnrevealedPosition g) eqn:Hpos3;
      [exact Hrev|].
    apply Z.leb_gt in Hpos3. cbn. intros i Hi.
    apply elem_of_union in Hi as [Hi|Hi]; [auto|].
    apply elem_of_singleton in Hi. subst i.
    pose proof (next_unrevealed_from_spec (revealedPositions g)
                  (String.length (currentWord g)) 0) as Hspec.
    cbn zeta in Hspec. unfold nextUnrevealedPosition in *. lia.
Qed.

Lemma showHint_frame level g :
  words (snd (showHint level g)) = words g /\
  uniqueWords (snd (showHint level g)) = uniqueWords g /\
  currentWord (snd (showHint level g)) = currentWord g /\
  customScores (snd (showHint level g)) = customScores g /\
  metrics (snd (showHint level g)) = metrics g.
Proof.
  unfold showHint.
  repeat first [case_bool_decide | destruct (_ <=? _)]; repeat split.
Qed.

Lemma customizeScoring_frame len r g :
  words (customizeScoring len r g) = words g /\
  uniqueWords (customizeScoring len r g) = uniqueWords g /\
  currentWord (customizeScoring len r g) = currentWord g /\
  revealedPositions (customizeScoring len r g) = revealedPositions g /\
  metrics (customizeScoring len r g) = metrics g.
Proof. unfold customizeScoring. destruct (_ || _); repeat split. Qed.

Lemma customizeScoring_positive len r g :
  custom_positive g -> custom_positive (customizeScoring len r g).
Proof.
  unfold custom_positive, customizeScoring. intros Hcustom.
  destruct ((len <=? 0) || (r <=? 0)) eqn:Hguard; [exact Hcustom|].
  apply orb_false_iff in Hguard as [Hl Hr].
  apply Z.leb_gt in Hl. apply Z.leb_gt in Hr. cbn.
  intros k v Hk. destruct (decide (len = k)) as [->|Hne].
  - rewrite lookup_insert_eq in Hk. injection Hk as <-. lia.
  - rewrite lookup_insert_ne in Hk by exact Hne. apply (Hcustom k v Hk).
Qed.

Lemma memory_step_same g g' :
  totalMemoryAllocated (metrics g') = totalMemoryAllocated (metrics g) ->
  peakMemoryUsage (metrics g') = peakMemoryUsage (metrics g) ->
  memory_step g g'.
Proof.
  intros Ht Hp. unfold memory_step, peak_covers_total. rewrite Ht, Hp.
  split; [tauto|lia].
Qed.

Lemma memory_step_trans g1 g2 g3 :
  memory_step g1 g2 -> memory_step g2 g3 -> memory_step g1 g3.
Proof. unfold memory_step. intros [H1 H2] [H3 H4]. split; [tauto|lia]. Qed.

Lemma memory_step_update g g0 :
  peakMemoryUsage (metrics g) <= peakMemoryUsage (metrics g0) ->
  memory_step g (updateMemoryUsage g0).
Proof.
  intros Hp. unfold memory_step, peak_covers_total, updateMemoryUsage.
  cbn [metrics set_metrics totalMemoryAllocated peakMemoryUsage].
  match goal with
  | |- context [Z.max _ (wrap_size_t ?x)] =>
      pose proof (Z.mod_pos_bound x (2 ^ 64) ltac:(lia)) as Hmod;
      fold (wrap_size_t x) in Hmod; generalize dependent (wrap_size_t x)
  end.
  intros total Htotal. split; [intros _|]; lia.
Qed.

Lemma addWord_memory word g : memory_step g (snd (addWord word g)).
Proof.
  unfold addWord. destruct (negb _); [apply memory_step_same; reflexivity|].
  case_bool_decide; [apply memory_step_same; reflexivity|].
  apply memory_step_update. reflexivity.
Qed.

Lemma add_lines_memory lines g : memory_step g (add_lines lines g).
Proof.
  revert g. induction lines as [|line lines IH]; intros g.
  - apply memory_step_same; reflexivity.
  - cbn [add_lines fold_left]. eapply memory_step_trans; [|apply IH].
    case_bool_decide; [apply memory_step_same; reflexivity|].
    apply addWord_memory.
Qed.

Lemma perform_memory op g : memory_step g (perform op g).
Proof.
  destruct op; cbn [perform];
    try (apply memory_step_same; reflexivity);
    try (apply memory_step_update; reflexivity).
  - apply addWord_memory.
  - destruct file as [contents|]; [|apply memory_step_same; reflexivity].
    rewrite loadWordsFromFile_Some. apply memory_step_update.
    apply (add_lines_memory (file_lines contents) g).
  - unfold selectRandomWord. destruct (words g);
      [apply memory_step_same; reflexivity|].
    destruct (uniform _ _ _). apply memory_step_same; reflexivity.
  - unfold scrambleWord.
    destruct (if 1 <? str_size word then _ else _) as [scrambled e].
    apply memory_step_same; reflexivity.
  - unfold updateScore. destruct (_ || _);
      [apply memory_step_same; reflexivity|].
    apply memory_step_update. reflexivity.
  - destruct can_open; apply memory_step_same; reflexivity.
  - destruct can_open; apply memory_step_same; reflexivity.
  - destruct file; [|apply memory_step_same; reflexivity].
    apply memory_step_update. reflexivity.
  - destruct (showHint_frame level g) as (_ & _ & _ & _ & Hm).
    apply memory_step_same; rewrite Hm; reflexivity.
  - match goal with
    | |- memory_step _ (customizeScoring ?len ?r _) =>
        destruct (customizeScoring_frame len r g) as (_ & _ & _ & _ & Hm)
    end.
    apply memory_step_same; rewrite Hm; reflexivity.
Qed.

Lemma addWord_frame word g :
  currentWord (snd (addWord word g)) = currentWord g /\
  revealedPositions (snd (addWord word g)) = revealedPositions g /\
  customScores (snd (addWord word g)) = customScores g.
Proof.
  unfold addWord. destruct (negb _); [repeat split|].
  case_bool_decide; repeat split.
Qed.

Lemma add_lines_frame lines g :
  currentWord (add_lines lines g) = currentWord g /\
  revealedPositions (add_lines lines g) = revealedPositions g /\
  customScores (add_lines lines g) = customScores g.
Proof.
  revert g. induction lines as [|line lines IH]; intros g; [repeat split|].
  cbn [add_lines fold_left].
  match goal with
  | |- context [fold_left _ lines ?g1] =>
      destruct (IH g1) as (H1 & H2 & H3);
      assert (currentWord g1 = currentWord g /\
              revealedPositions g1 = revealedPositions g /\
              customScores g1 = customScores g) as (H4 & H5 & H6)
        by (case_bool_decide; [repeat split|apply addWord_frame])
  end.
  unfold add_lines in *. rewrite H1, H2, H3. repeat split; assumption.
Qed.

Lemma loadWordsFromFile_bank file start finish g :
  bank_well_formed g ->
  bank_well_formed (snd (loadWordsFromFile file start finish g)) /\
  (exists added,
     words (snd (loadWordsFromFile file start finish g)) = words g ++ added) /\
  currentWord (snd (loadWordsFromFile file start finish g)) = currentWord g /\
  revealedPositions (snd (loadWordsFromFile file start finish g)) =
    revealedPositions g /\
  customScores (snd (loadWordsFromFile file start finish g)) = customScores g.
Proof.
  intros Hbank. destruct file as [contents|].
  - rewrite loadWordsFromFile_Some.
    destruct (add_lines_bank (file_lines contents) g Hbank) as [Hb Hadded].
    destruct (add_lines_frame (file_lines contents) g) as (Hc & Hr & Hs).
    split; [exact Hb|]. split; [exact Hadded|]. repeat split; assumption.
  - split; [exact Hbank|]. split; [exists []; rewrite app_nil_r; reflexivity|].
    repeat split.
Qed.

Lemma new_game_inv e :
  session_inv (new_game e) /\ words (new_game e) = default_words.
Proof.
  split; [|reflexivity]. unfold session_inv. split; [|split; [|split; [|split]]].
  - unfold bank_well_formed. cbn [new_game words uniqueWords updateMemoryUsage
      set_metrics initializeDefaultWords default_words fold_left set_bank app].
    split; [repeat constructor|]. split.
    + cbn [fmap list_fmap].
      repeat (apply NoDup_cons; split;
              [rewrite ?elem_of_cons, elem_of_nil; intros Hin;
               repeat destruct Hin as [Hin|Hin]; try discriminate; exact Hin|]).
      apply NoDup_nil_2.
    + cbn [fmap list_fmap list_to_set foldr]. set_solver.
  - left. reflexivity.
  - intros i Hi. cbn in Hi. apply elem_of_empty in Hi. contradiction.
  - intros len r Hlookup. cbn in Hlookup. rewrite lookup_empty in Hlookup.
    discriminate.
  - apply (proj1 (memory_step_update (new_game e) _ (Z.le_refl _))).
    apply (proj1 (memory_step_update (new_game e) (new_game e) (Z.le_refl _))).
    unfold new_game.
    apply (proj1 (memory_step_update _ _ (Z.le_refl _))).
    unfold peak_covers_total. cbn. lia.
Qed.

Lemma perform_inv op g :
  session_inv g ->
  session_inv (perform op g) /\
  exists added, words (perform op g) = words g ++ added.
Proof.
  intros (Hbank & Htarget & Hrev & Hcustom & Hpeak).
  pose proof (proj1 (perform_memory op g) Hpeak) as Hpeak'.
  pose proof (perform_same_round_state op g) as Hsame.
  assert (forall g', same_round_state g g' -> peak_covers_total g' ->
            session_inv g' /\ exists added, words g' = words g ++ added)
    as Hframe.
  { intros g' Hs Hp.
    destruct (same_round_state_inv g g' Hs Hbank Htarget Hrev Hcustom)
      as (H1 & H2 & H3 & H4).
    split; [exact (conj H1 (conj H2 (conj H3 (conj H4 Hp))))|].
    exists []. rewrite app_nil_r. apply Hs. }
  destruct op; try (apply Hframe; assumption); cbn [perform] in *; clear Hsame.
  - destruct (addWord_bank word g Hbank) as [Hb Hw].
    destruct (addWord_frame word g) as (Hc & Hr & Hs).
    assert (exists added, words (snd (addWord word g)) = words g ++ added)
      as [added Hadded]
      by (destruct Hw as [Hw|Hw];
          [exists []; rewrite app_nil_r; exact Hw|eexists; exact Hw]).
    split; [|exists added; exact Hadded].
    split; [exact Hb|]. split; [|split; [|split; [|exact Hpeak']]].
    + apply (target_in_grown_bank g _ added Hadded Hc Htarget).
    + unfold revealed_in_range. rewrite Hr, Hc. exact Hrev.
    + unfold custom_positive. rewrite Hs. exact Hcustom.
  - destruct (loadWordsFromFile_bank file start finish g Hbank)
      as (Hb & [added Hadded] & Hc & Hr & Hs).
    split; [|exists added; exact Hadded].
    split; [exact Hb|]. split; [|split; [|split; [|exact Hpeak']]].
    + apply (target_in_grown_bank g _ added Hadded Hc Htarget).
    + unfold revealed_in_range. rewrite Hr, Hc. exact Hrev.
    + unfold custom_positive. rewrite Hs. exact Hcustom.
  - destruct (decide (words g = [])) as [Hwords|Hne].
    + assert (snd (selectRandomWord now g) = g) as ->
        by (unfold selectRandomWord; rewrite Hwords; reflexivity).
      split; [exact (conj Hbank (conj Htarget (conj Hrev (conj Hcustom Hpeak))))|].
      exists []. rewrite app_nil_r. reflexivity.
    + destruct (selectRandomWord_target now g Hne)
        as (Hin & Hc & Hr & Hw & Hu & Hs).
      split; [|exists []; rewrite app_nil_r; exact Hw].
      split; [|split; [|split; [|split; [|exact Hpeak']]]].
      * unfold bank_well_formed. rewrite Hw, Hu. exact Hbank.
      * right. rewrite Hc, Hw. exact Hin.
      * intros i Hi. rewrite Hr in Hi. apply elem_of_empty in Hi. contradiction.
      * unfold custom_positive. rewrite Hs. exact Hcustom.
  - destruct (showHint_frame level g) as (Hw & Hu & Hc & Hs & _).
    split; [|exists []; rewrite app_nil_r; exact Hw].
    split; [|split; [|split; [|split; [|exact Hpeak']]]].
    + unfold bank_well_formed. rewrite Hw, Hu. exact Hbank.
    + unfold target_in_bank. rewrite Hc, Hw. exact Htarget.
    + apply showHint_in_range, Hrev.
    + unfold custom_positive. rewrite Hs. exact Hcustom.
  - match goal with
    | |- context [customizeScoring ?len ?r g] =>
        destruct (customizeScoring_frame len r g) as (Hw & Hu & Hc & Hr & _);
        pose proof (customizeScoring_positive len r g Hcustom) as Hcustom'
    end.
    split; [|exists []; rewrite app_nil_r; exact Hw].
    split; [|split; [|split; [|split; [|exact Hpeak']]]].
    + unfold bank_well_formed. rewrite Hw, Hu. exact Hbank.
    + unfold target_in_bank. rewrite Hc, Hw. exact Htarget.
    + unfold revealed_in_range. rewrite Hr, Hc. exact Hrev.
    + exact Hcustom'.
Qed.

Lemma reachable_inv g :
  reachable g ->
  session_inv g /\ exists added, words g = default_words ++ added.
Proof.
  induction 1 as [e|op g Hreach [Hinv [added Hadded]]].
  - destruct (new_game_inv e) as [Hinv Hwords]. split; [exact Hinv|].
    exists []. rewrite app_nil_r. exact Hwords.
  - destruct (perform_inv op g Hinv) as [Hinv' [more Hmore]].
    split; [exact Hinv'|]. exists (added ++ more).
    rewrite Hmore, Hadded, app_assoc. reflexivity.
Qed.

End SessionInvariants.

(** ** The bank, the target and the scoring table of a reachable session *)

Section ReachableSessions.
Context {F : Float64} {Sorter : StdSort}.

(** X5: in every session that the operations reach from the constructor,
    the bank starts with the four default words, every word of it matches
    [[A-Za-z]{2,20}], no two of its words are equal up to letter case, and
    the set used for the duplicate test holds exactly the lower-case forms
    of its words. *)
Theorem reachable_bank_is_well_formed (g : Game) :
  reachable g ->
  (exists added, words g = default_words ++ added) /\
  Forall matches_letters_2_20 (words g) /\
  (forall i j v w,
     words g !! i = Some v -> words g !! j = Some w ->
     case_insensitively_equal v w -> i = j) /\
  (forall x, x ∈ uniqueWords g <-> exists v, v ∈ words g /\ toLowerCase v = x).
Proof.
  intros Hreach.
  destruct (reachable_inv g Hreach) as [(Hbank & _) Hdefault].
  split; [exact Hdefault|]. split; [|split].
  - destruct Hbank as (Hvalid & _ & _).
    eapply Forall_impl; [exact Hvalid|]. intros w. apply isValidWord_matches.
  - destruct Hbank as (_ & Hnodup & _). intros i j v w Hi Hj Heq.
    apply toLowerCase_eq_iff in Heq.
    apply (NoDup_lookup (toLowerCase <$> words g) i j (toLowerCase v) Hnodup).
    + rewrite list_lookup_fmap, Hi. reflexivity.
    + rewrite list_lookup_fmap, Hj, Heq. reflexivity.
  - intros x. apply elem_of_lowered_bank, Hbank.
Qed.

Lemma revealed_size_bound g :
  revealed_in_range g ->
  (size (revealedPositions g) <= String.length (currentWord g))%nat.
Proof.
  intros Hrev.
  assert (revealedPositions g ⊆
            list_to_set (seqZ 0 (Z.of_nat (String.length (currentWord g)))))
    as Hsub.
  { intros i Hi. apply elem_of_list_to_set, elem_of_seqZ.
    specialize (Hrev i Hi). unfold str_size in Hrev. lia. }
  apply subseteq_size in Hsub.
  rewrite size_list_to_set in Hsub by apply NoDup_seqZ.
  rewrite length_seqZ in Hsub. lia.
Qed.

(** X6: in every reachable session the target is empty or a word of the
    bank, so a word of two to twenty letters; the revealed positions are
    positions of the target, so there are no more of them than the target
    has letters, and none without a target. *)
Theorem reachable_target_is_bank_word (g : Game) :
  reachable g ->
  (currentWord g <> EmptyString ->
   currentWord g ∈ words g /\ matches_letters_2_20 (currentWord g)) /\
  (forall i, i ∈ revealedPositions g -> 0 <= i < str_size (currentWord g)) /\
  (size (revealedPositions g) <= String.length (currentWord g))%nat /\
  (currentWord g = EmptyString -> revealedPositions g = ∅).
Proof.
  intros Hreach.
  destruct (reachable_inv g Hreach) as [(Hbank & Htarget & Hrev & _) _].
  split; [|split; [exact Hrev|split; [apply revealed_size_bound, Hrev|]]].
  - intros Hne. destruct Htarget as [Hempty|Hin]; [contradiction|].
    split; [exact Hin|]. destruct Hbank as (Hvalid & _).
    rewrite Forall_forall in Hvalid. apply isValidWord_matches, Hvalid, Hin.
  - intros Hempty. apply set_eq. intros i. split.
    + intros Hi. specialize (Hrev i Hi). rewrite Hempty in Hrev.
      unfold str_size in Hrev. simpl in Hrev. lia.
    + intros Hi. apply elem_of_empty in Hi. contradiction.
Qed.

(** X7: [selectRandomWord] on an empty bank answers the empty word and
    leaves the session as it is; on a bank with words it answers one of
    them, makes it the target and clears the revealed positions; a reachable
    session always has words, so there the answer is never empty. *)
Theorem selectRandomWord_picks_bank_word (now : Z) (g : Game) :
  (words g = [] -> selectRandomWord now g = (EmptyString, g)) /\
  (words g <> [] ->
   fst (selectRandomWord now g) ∈ words g /\
   currentWord (snd (selectRandomWord now g)) = fst (selectRandomWord now g) /\
   revealedPositions (snd (selectRandomWord now g)) = ∅ /\
   lastGuessStart (snd (selectRandomWord now g)) = now /\
   words (snd (selectRandomWord now g)) = words g) /\
  (reachable g ->
   fst (selectRandomWord now g) ∈ words g /\
   fst (selectRandomWord now g) <> EmptyString).
Proof.
  split; [|split].
  - intros Hwords. unfold selectRandomWord. rewrite Hwords. reflexivity.
  - intros Hne.
    destruct (selectRandomWord_target now g Hne) as (Hin & Hc & Hr & Hw & _).
    split; [exact Hin|]. split; [exact Hc|]. split; [exact Hr|].
    split; [|exact Hw].
    unfold selectRandomWord. destruct (words g); [contradiction|].
    destruct (uniform _ _ _). reflexivity.
  - intros Hreach.
    destruct (reachable_inv g Hreach) as [(Hbank & _) [added Hadded]].
    assert (words g <> []) as Hne by (rewrite Hadded; discriminate).
    destruct (selectRandomWord_target now g Hne) as (Hin & _).
    split; [exact Hin|]. intros Hempty. rewrite Hempty in Hin.
    destruct Hbank as (Hvalid & _). rewrite Forall_forall in Hvalid.
    specialize (Hvalid _ Hin). discriminate.
Qed.

End ReachableSessions.

(** ** Score and memory along a session *)

Lemma round_halves_bounds r m :
  0 < r -> 2 <= m <= 4 ->
  r <= round_halves (r * m) <= 2 * r.
Proof.
  intros Hr Hm. unfold round_halves.
  replace (0 <=? r * m) with true by (symmetry; apply Z.leb_le; nia).
  split.
  - apply Z.div_le_lower_bound; nia.
  - apply Z.lt_succ_r. apply Z.div_lt_upper_bound; nia.
Qed.

Section ScoreAlongSession.
Context {F : Float64} {Sorter : StdSort}.

Lemma multiplier_halves_range d : 2 <= multiplier_halves d <= 4.
Proof. destruct d; simpl; lia. Qed.

Lemma reward_positive g :
  custom_positive g -> currentWord g <> EmptyString -> 0 < reward g.
Proof.
  intros Hcustom Hne. unfold reward.
  destruct (customScores g !! str_size (currentWord g)) as [r|] eqn:Hlookup.
  - apply (Hcustom _ _ Hlookup).
  - unfold str_size. destruct (currentWord g); [contradiction|]. simpl. lia.
Qed.

(** X8: in a reachable session, as long as the sums fit the type [int],
    [updateScore] never lowers the score; with a target and a right last
    guess it raises it, by at least the reward and at most twice the
    reward, the reward being positive. *)
Theorem updateScore_never_lowers_score (g : Game) :
  reachable g -> score_fits 1 g ->
  g_score g <= g_score (updateScore g) /\
  (currentWord g <> EmptyString -> lastGuessCorrect g = true ->
   0 < reward g /\
   g_score g + reward g <= g_score (updateScore g) <= g_score g + 2 * reward g).
Proof.
  intros Hreach Hfit.
  destruct (reachable_inv g Hreach) as [(_ & _ & _ & Hcustom & _) _].
  assert (currentWord g <> EmptyString -> lastGuessCorrect g = true ->
          0 < reward g /\
          g_score g + reward g <= g_score (updateScore g)
            <= g_score g + 2 * reward g) as Hraise.
  { intros Hne Hcorrect. pose proof (reward_positive g Hcustom Hne) as Hpos.
    split; [exact Hpos|].
    rewrite (updateScore_score g Hne Hcorrect Hfit). unfold rounded_reward.
    pose proof (round_halves_bounds (reward g)
                  (multiplier_halves (g_difficulty g)) Hpos
                  (multiplier_halves_range _)). lia. }
  split; [|exact Hraise].
  destruct (decide (currentWord g = EmptyString)) as [Hempty|Hne].
  - rewrite (updateScore_no_op g (or_introl Hempty)). lia.
  - destruct (lastGuessCorrect g) eqn:Hcorrect.
    + specialize (Hraise Hne eq_refl). lia.
    + rewrite (updateScore_no_op g (or_intror Hcorrect)). lia.
Qed.

(** X9: for the session before and after any operation, the peak of the
    memory estimate does not decrease; and in every reachable session the
    estimate is not negative and the peak is at least the estimate. *)
Theorem peak_memory_never_decreases (g : Game) :
  (forall op,
     peakMemoryUsage (metrics g) <= peakMemoryUsage (metrics (perform op g))) /\
  (reachable g ->
   0 <= totalMemoryAllocated (metrics g) <= peakMemoryUsage (metrics g)).
Proof.
  split.
  - intros op. apply perform_memory.
  - intros Hreach.
    destruct (reachable_inv g Hreach) as [(_ & _ & _ & _ & Hpeak) _].
    exact Hpeak.
Qed.

(** X10: a guess and then [updateScore]: after a guess that does not match
    the target the score update changes nothing; after one that matches a
    target, it adds the rounded reward of the session, when the sums fit the
    type [int]. *)
Theorem checkGuess_then_updateScore (guess : string) (now restart : Z)
    (g : Game) :
  let guessed := snd (checkGuess guess now restart g) in
  (caseInsensitiveCompare guess (currentWord g) = false ->
   updateScore guessed = guessed) /\
  (caseInsensitiveCompare guess (currentWord g) = true ->
   currentWord g <> EmptyString -> score_fits 1 g ->
   g_score (updateScore guessed) = g_score g + rounded_reward g).
Proof.
  cbn zeta. split.
  - intros Hwrong. apply updateScore_no_op. right. cbn. exact Hwrong.
  - intros Hright Hne Hfit.
    rewrite updateScore_score; [reflexivity|exact Hne|exact Hright|exact Hfit].
Qed.

(** X11: [customizeScoring] ignores a length or a reward that is not
    positive; otherwise it sets the reward of that length and of no other,
    replacing an earlier one, and that reward is the one of a target of
    that length. *)
Theorem customizeScoring_sets_reward (len r : Z) (g : Game) :
  (len <= 0 \/ r <= 0 -> customizeScoring len r g = g) /\
  (0 < len -> 0 < r ->
   customScores (customizeScoring len r g) !! len = Some r /\
   (forall k, k <> len ->
      customScores (customizeScoring len r g) !! k = customScores g !! k) /\
   (str_size (currentWord g) = len -> reward (customizeScoring len r g) = r)).
Proof.
  unfold customizeScoring. split.
  - intros Hbad.
    replace ((len <=? 0) || (r <=? 0)) with true; [reflexivity|].
    symmetry. apply orb_true_iff.
    destruct Hbad; [left|right]; apply Z.leb_le; assumption.
  - intros Hlen Hr.
    replace ((len <=? 0) || (r <=? 0)) with false
      by (symmetry; apply orb_false_iff; split; apply Z.leb_gt; assumption).
    cbn. split; [apply lookup_insert_eq|]. split.
    + intros k Hk. apply lookup_insert_ne. congruence.
    + intros Hsize. unfold reward. cbn. rewrite Hsize, lookup_insert_eq.
      reflexivity.
Qed.

End ScoreAlongSession.

(** ** Hints of level 3 *)

Section HintsOfLevel3.
Context {F : Float64} {Sorter : StdSort}.

Lemma nextUnrevealedPosition_spec (g : Game) :
  0 <= nextUnrevealedPosition g <= str_size (currentWord g) /\
  (forall i, 0 <= i < nextUnrevealedPosition g -> i ∈ revealedPositions g) /\
  (nextUnrevealedPosition g < str_size (currentWord g) ->
   nextUnrevealedPosition g ∉ revealedPositions g) /\
  (nextUnrevealedPosition g = str_size (currentWord g) <-> all_revealed g).
Proof.
  pose proof (next_unrevealed_from_spec (revealedPositions g)
                (String.length (currentWord g)) 0) as Hspec.
  cbn zeta in *. unfold nextUnrevealedPosition, str_size in *.
  destruct Hspec as (Hrange & Hlow & Hnot).
  split; [lia|]. split; [exact Hlow|]. split; [intros Hlt; apply Hnot; lia|].
  unfold all_revealed, str_size. split.
  - intros Heq i Hi. apply Hlow. lia.
  - intros Hall.
    destruct (decide (next_unrevealed_from (revealedPositions g)
                        (String.length (currentWord g)) 0
                      = Z.of_nat (String.length (currentWord g))))
      as [Heq|Hne]; [exact Heq|].
    exfalso. apply Hnot; [lia|]. apply Hall. lia.
Qed.

(** X12: [nextUnrevealedPosition] is the least position of the target that
    is not revealed, and the length of the target when every position is
    revealed. *)
Theorem nextUnrevealedPosition_is_least (g : Game) :
  let position := nextUnrevealedPosition g in
  0 <= position <= str_size (currentWord g) /\
  (forall i, 0 <= i < position -> i ∈ revealedPositions g) /\
  (position < str_size (currentWord g) -> position ∉ revealedPositions g) /\
  (position = str_size (currentWord g) <-> all_revealed g).
Proof. exact (nextUnrevealedPosition_spec g). Qed.

Lemma showHint_all_revealed level g :
  all_revealed g -> snd (showHint level g) = g.
Proof.
  intros Hall. unfold showHint. case_bool_decide; [reflexivity|].
  apply all_revealed_size in Hall. apply Z.leb_le in Hall. rewrite Hall.
  reflexivity.
Qed.

Lemma hints3_all_revealed count g : all_revealed g -> hints3 count g = g.
Proof.
  intros Hall. induction count as [|k IH]; [reflexivity|].
  cbn [hints3]. rewrite (showHint_all_revealed 3 g Hall). exact IH.
Qed.

(** One hint of level 3 while a position is hidden. *)
Lemma showHint3_reveals_one g :
  currentWord g <> EmptyString -> revealed_in_range g ->
  (size (revealedPositions g) < String.length (currentWord g))%nat ->
  showHint 3 g =
    (["Letter at position " ++ print_int (nextUnrevealedPosition g + 1)
        ++ " is '" ++ char_at (currentWord g) (nextUnrevealedPosition g)
        ++ "'"]%string,
     set_revealed (revealedPositions g ∪ {[ nextUnrevealedPosition g ]}) g) /\
  nextUnrevealedPosition g < str_size (currentWord g) /\
  nextUnrevealedPosition g ∉ revealedPositions g.
Proof.
  intros Hne Hrev Hsize.
  destruct (nextUnrevealedPosition_spec g) as (Hrange & Hlow & Hnot & Hfull).
  assert (nextUnrevealedPosition g < str_size (currentWord g)) as Hlt.
  { destruct (decide (nextUnrevealedPosition g = str_size (currentWord g)))
      as [Heq|Hneq]; [|lia].
    apply Hfull in Heq. apply all_revealed_size in Heq.
    unfold str_size in Heq. lia. }
  split; [|split; [exact Hlt|apply Hnot, Hlt]].
  unfold showHint. rewrite bool_decide_eq_false_2 by exact Hne.
  replace (str_size (currentWord g) <=? Z.of_nat (size (revealedPositions g)))
    with false by (symmetry; apply Z.leb_gt; unfold str_size; lia).
  rewrite (bool_decide_eq_false_2 (3 = 1)) by discriminate.
  rewrite (bool_decide_eq_false_2 (3 = 2)) by discriminate.
  replace (str_size (currentWord g) <=? nextUnrevealedPosition g)
    with false by (symmetry; apply Z.leb_gt; exact Hlt).
  reflexivity.
Qed.

Lemma full_size_all_revealed g :
  revealed_in_range g ->
  (String.length (currentWord g) <= size (revealedPositions g))%nat ->
  all_revealed g.
Proof.
  intros Hrev Hcount.
  assert (revealedPositions g =
            list_to_set (seqZ 0 (Z.of_nat (String.length (currentWord g)))))
    as Hfull.
  { apply set_subseteq_size_eq.
    - intros i Hi. apply elem_of_list_to_set, elem_of_seqZ.
      specialize (Hrev i Hi). unfold str_size in Hrev. lia.
    - rewrite size_list_to_set by apply NoDup_seqZ. rewrite length_seqZ. lia. }
  intros i Hi. rewrite Hfull. apply elem_of_list_to_set, elem_of_seqZ.
  unfold str_size in Hi. lia.
Qed.

Lemma hints3_reveal_all count g :
  currentWord g <> EmptyString -> revealed_in_range g ->
  (String.length (currentWord g) <= size (revealedPositions g) + count)%nat ->
  all_revealed (hints3 count g) /\
  currentWord (hints3 count g) = currentWord g.
Proof.
  revert g. induction count as [|k IH]; intros g Hne Hrev Hcount.
  - cbn [hints3]. split; [|reflexivity].
    apply full_size_all_revealed; [exact Hrev|lia].
  - cbn [hints3].
    destruct (decide (size (revealedPositions g)
                      < String.length (currentWord g))%nat) as [Hlt|Hge].
    + destruct (showHint3_reveals_one g Hne Hrev Hlt) as (Hshow & Hpos & Hnew).
      rewrite Hshow. cbn [snd].
      pose proof (showHint_in_range 3 g Hrev) as Hrev'.
      rewrite Hshow in Hrev'. cbn [snd] in Hrev'.
      destruct (IH (set_revealed
                      (revealedPositions g ∪ {[nextUnrevealedPosition g]}) g))
        as [Hall Hword]; [exact Hne|exact Hrev'| |split; [exact Hall|exact Hword]].
      cbn [revealedPositions set_revealed currentWord].
      rewrite size_union by set_solver. rewrite size_singleton. lia.
    + assert (all_revealed g) as Hall
        by (apply full_size_all_revealed; [exact Hrev|lia]).
      rewrite (showHint_all_revealed 3 g Hall).
      rewrite (hints3_all_revealed k g Hall). split; [exact Hall|reflexivity].
Qed.

(** X13: a hint of level 3, while a position of the target is hidden,
    reveals the least hidden position and no other, and names it, counting
    from 1; as many hints of level 3 as the target has letters reveal every
    position, whatever was revealed before, and the hint after them is
    refused. *)
Theorem level3_hints_reveal_left_to_right (g : Game) :
  reachable g -> currentWord g <> EmptyString ->
  ((size (revealedPositions g) < String.length (currentWord g))%nat ->
   revealedPositions (snd (showHint 3 g)) =
     revealedPositions g ∪ {[ nextUnrevealedPosition g ]} /\
   (nextUnrevealedPosition g ∉ revealedPositions g) /\
   size (revealedPositions (snd (showHint 3 g))) =
     S (size (revealedPositions g)) /\
   fst (showHint 3 g) =
     ["Letter at position " ++ print_int (nextUnrevealedPosition g + 1)
        ++ " is '" ++ char_at (currentWord g) (nextUnrevealedPosition g)
        ++ "'"]%string) /\
  (let hinted := hints3 (String.length (currentWord g)) g in
   all_revealed hinted /\ currentWord hinted = currentWord g /\
   showHint 3 hinted = ([no_more_hints], hinted)).
Proof.
  intros Hreach Hne.
  destruct (reachable_inv g Hreach) as [(_ & _ & Hrev & _) _].
  split.
  - intros Hlt.
    destruct (showHint3_reveals_one g Hne Hrev Hlt) as (Hshow & Hpos & Hnew).
    rewrite Hshow. cbn [fst snd revealedPositions set_revealed].
    split; [reflexivity|]. split; [exact Hnew|]. split; [|reflexivity].
    rewrite size_union by set_solver. rewrite size_singleton. lia.
  - cbn zeta.
    destruct (hints3_reveal_all (String.length (currentWord g)) g Hne Hrev
                ltac:(lia)) as [Hall Hword].
    split; [exact Hall|]. split; [exact Hword|].
    unfold showHint. rewrite Hword.
    rewrite bool_decide_eq_false_2 by exact Hne.
    pose proof (all_revealed_size _ Hall) as Hsize. rewrite Hword in Hsize.
    apply Z.leb_le in Hsize. rewrite Hsize. reflexivity.
Qed.

End HintsOfLevel3.
